(** * Verification of [assert/_diff.ts]

    A shallow embedding of the sequence-diff module: the experimental
    [diffSequence] search that the public [diff] delegates to, the
    tokenizer and escaping helpers nested in [diffstr], and
    [createDetails].

    Conventions of the embedding.
    - Numbers are [Z]; a [Uint32Array] is a [list Z] whose writes wrap
      modulo [2^32].
    - A JS string is the list of its UTF-16 code units ([jsstring]).
    - A generic array of [T] is a [list T]; [===] on [T] is Leibniz
      equality, decided by [EqDecision T] (values such as [NaN], which are
      not equal to themselves, are outside the model).
    - Every [while] loop, and every [for] loop that can [break] or that
      changes its own bounds, is run by the fuelled combinator [while_].
      A computation returns [None] when the fuel runs out, when a typed
      array is accessed out of range, or when an array element that the
      code uses as a value is missing; the totality lemmas show that none
      of these happens on any input.
    - [console.log] calls and the debug helpers are not modelled. *)

From stdpp Require Import prelude.

#[local] Set Warnings "-register-all".

#[local] Open Scope Z_scope.

(** ** Loops *)

(** [while (cond(s)) s = body(s)], with [fuel] bounding the iterations. *)
Fixpoint while_ {S : Type} (fuel : nat) (cond : S -> bool)
    (body : S -> option S) (s : S) : option S :=
  match fuel with
  | O => if cond s then None else Some s
  | Datatypes.S f =>
      if cond s then
        match body s with
        | Some s' => while_ f cond body s'
        | None => None
        end
      else Some s
  end.

(** ** Arrays *)

(** [l[i]] for a JS number [i]: [None] stands for [undefined]. *)
Definition at_ {A : Type} (l : list A) (i : Z) : option A :=
  if i <? 0 then None else l !! Z.to_nat i.

(** [l.length] *)
Definition len {A : Type} (l : list A) : Z := Z.of_nat (length l).

(** Read of a [Uint32Array]; an index outside the array is an error of the
    model. *)
Definition rd (v : list Z) (i : Z) : option Z := at_ v i.

(** Write to a [Uint32Array]: the stored value wraps to 32 bits. *)
Definition wr (v : list Z) (i : Z) (x : Z) : option (list Z) :=
  if (0 <=? i) && (i <? len v)
  then Some (<[Z.to_nat i := x mod 2 ^ 32]> v)
  else None.

(** ** Data model *)

Inductive DiffType : Type := removed | common | added.

#[global] Instance DiffType_eq_dec : EqDecision DiffType.
Proof. solve_decision. Defined.

Inductive DiffResult (T : Type) : Type :=
  mkDiffResult {
    type : DiffType;
    value : T;
    details : option (list (DiffResult T))
  }.

Arguments mkDiffResult {T} _ _ _.
Arguments type {T} _.
Arguments value {T} _.
Arguments details {T} _.

(** [{ type: ty, value: x }] *)
Definition entry {T : Type} (ty : DiffType) (x : T) : DiffResult T :=
  mkDiffResult ty x None.

(** [{ ...r, type: ty }] *)
Definition with_type {T : Type} (r : DiffResult T) (ty : DiffType)
    : DiffResult T :=
  mkDiffResult ty (value r) (details r).

(** [r.details = d] *)
Definition with_details {T : Type} (r : DiffResult T)
    (d : list (DiffResult T)) : DiffResult T :=
  mkDiffResult (type r) (value r) (Some d).

(** ** [diffSequence] *)

Section DiffSequence.
Context {T : Type} `{EqDecision T}.

(** [a[i] === b[j]]; both sides may be [undefined]. *)
Definition same (a b : list T) (i j : Z) : bool :=
  bool_decide (at_ a i = at_ b j).

(** Lines 158-164: the scan for matches at the start.  The state is
    [(start, commonPrefix)]; the [break] is folded into the loop test. *)
Definition prefix_cond (a b : list T) (minLen : Z)
    (s : Z * list (DiffResult T)) : bool :=
  (s.1 <? minLen) && same a b s.1 s.1.

Definition prefix_body (a : list T) (s : Z * list (DiffResult T))
    : option (Z * list (DiffResult T)) :=
  x ← at_ a s.1;
  Some (s.1 + 1, s.2 ++ [entry common x]).

Definition prefix_loop (a b : list T) (minLen : Z)
    : option (Z * list (DiffResult T)) :=
  while_ (Z.to_nat minLen) (prefix_cond a b minLen) (prefix_body a) (0, []).

(** Lines 167-176: the scan for matches at the end.  The state is
    [(i, commonSuffix)]. *)
Definition suffix_cond (a b : list T) (endLimit : Z)
    (s : Z * list (DiffResult T)) : bool :=
  (s.1 <? endLimit + 1) && same a b (len a - s.1) (len b - s.1).

Definition suffix_body (a : list T) (s : Z * list (DiffResult T))
    : option (Z * list (DiffResult T)) :=
  x ← at_ a (len a - s.1);
  Some (s.1 + 1, s.2 ++ [entry common x]).

Definition suffix_loop (a b : list T) (endLimit : Z)
    : option (Z * list (DiffResult T)) :=
  while_ (Z.to_nat endLimit) (suffix_cond a b endLimit) (suffix_body a)
    (1, []).

(** Line 228: [while (x < n && y < m && a[x + start] === b[y + start])]. *)
Definition snake_cond (a b : list T) (start n m : Z) (xy : Z * Z) : bool :=
  (xy.1 <? n) && (xy.2 <? m) && same a b (xy.1 + start) (xy.2 + start).

Definition snake_body (xy : Z * Z) : option (Z * Z) :=
  Some (xy.1 + 1, xy.2 + 1).

Definition snake (a b : list T) (start n m : Z) (xy : Z * Z)
    : option (Z * Z) :=
  while_ (Z.to_nat n) (snake_cond a b start n m) snake_body xy.

(** State of the loop over the diagonals [k] at one depth [d]. *)
Record KState : Type := mkK { kv : list Z; kk : Z; kfound : bool }.

(** Line 219: the choice between the two neighbouring diagonals, with the
    short-circuit evaluation of the source. *)
Definition choose_x (v : list Z) (max d k : Z) : option Z :=
  if bool_decide (k = - d) then rd v ((k + 1) + max)
  else if bool_decide (k ≠ d) then
    lo ← rd v ((k - 1) + max);
    hi ← rd v ((k + 1) + max);
    if lo <? hi then Some hi
    else lo' ← rd v (max + (k - 1)); Some (lo' + 1)
  else lo' ← rd v (max + (k - 1)); Some (lo' + 1).

Definition k_cond (d nMax : Z) (st : KState) : bool :=
  negb (kfound st) && (kk st <? d - 2 * nMax + 1).

(** Lines 216-239; [break search] sets [kfound] and skips [k += 2]. *)
Definition k_body (a b : list T) (start n m max d : Z) (st : KState)
    : option KState :=
  let k := kk st in
  x ← choose_x (kv st) max d k;
  let y := x - k in
  xy ← snake a b start n m (x, y);
  v' ← wr (kv st) (k + max) xy.1;
  if (xy.1 >=? n) && (xy.2 >=? m)
  then Some (mkK v' k true)
  else Some (mkK v' (k + 2) false).

(** State of the labelled loop [search] over the depth [d]. *)
Record SearchState : Type :=
  mkSearch { sv : list Z; strace : list (list Z); sd : Z; sfound : bool }.

Definition search_cond (max : Z) (st : SearchState) : bool :=
  negb (sfound st) && (sd st <? max).

(** Lines 208-240: one pass of the [search] loop. *)
Definition search_body (a b : list T) (start n m max : Z)
    (st : SearchState) : option SearchState :=
  let d := sd st in
  let trace' := if 0 <? d then strace st ++ [sv st] else strace st in
  let mMax := if d - m >? 0 then d - m else 0 in
  let nMax := if d - n >? 0 then d - n else 0 in
  ks ← while_ (Z.to_nat max) (k_cond d nMax) (k_body a b start n m max d)
         (mkK (sv st) (- (d - 2 * mMax)) false);
  if kfound ks
  then Some (mkSearch (kv ks) trace' d true)
  else Some (mkSearch (kv ks) trace' (d + 1) false).

(** Lines 196-241: the search over the core left by the trimming. *)
Definition search (a b : list T) (start end_ : Z) : option SearchState :=
  let n := len a - start - end_ in
  let m := len b - start - end_ in
  let max := m + n in
  let v := replicate (Z.to_nat (2 * max + 1)) 0 in
  while_ (Z.to_nat max) (search_cond max) (search_body a b start n m max)
    (mkSearch v [] 0 false).

(** Lines 184-254: what [diffSequence] does once the trimming has left a
    core: it runs the search and returns the empty array. *)
Definition engine (a b : list T) (start end_ : Z)
    : option (list (DiffResult T)) :=
  _ ← search a b start end_;
  Some [].

Definition diffSequence (a b : list T) : option (list (DiffResult T)) :=
  let aLen := len a in
  let bLen := len b in
  if (aLen =? 0) && (bLen =? 0) then Some []
  else
    let minLen := if aLen >? bLen then bLen else aLen in
    p ← prefix_loop a b minLen;
    let start := p.1 in
    let endLimit := minLen - start in
    q ← suffix_loop a b endLimit;
    let end_ := len q.2 in
    if start + end_ =? minLen then Some []
    else engine a b start end_.

(** Lines 302-304: everything after the [return] is dead. *)
Definition diff (A B : list T) : option (list (DiffResult T)) :=
  diffSequence A B.

End DiffSequence.

(** ** Strings *)

(** A JS string: its UTF-16 code units. *)
Definition jsstring : Type := list Z.

Module Ch.
Definition BS : Z := 8.          (* "\b" *)
Definition TAB : Z := 9.         (* "\t" *)
Definition LF : Z := 10.         (* "\n" *)
Definition VT : Z := 11.         (* "\v" *)
Definition FF : Z := 12.         (* "\f" *)
Definition CR : Z := 13.         (* "\r" *)
Definition backslash : Z := 92.
Definition b : Z := 98.
Definition f : Z := 102.
Definition n : Z := 110.
Definition r : Z := 114.
Definition t : Z := 116.
Definition v : Z := 118.
End Ch.

Definition in_range (lo hi c : Z) : bool := (lo <=? c) && (c <=? hi).

(** The class [\s] of a regular expression without the [u] flag; it is also
    the set of code units that [String.prototype.trim] strips. *)
Definition is_space (c : Z) : bool :=
  in_range 9 13 c || (c =? 32) || (c =? 160) || (c =? 5760)
  || in_range 8192 8202 c || (c =? 8232) || (c =? 8233) || (c =? 8239)
  || (c =? 8287) || (c =? 12288) || (c =? 65279).

(** [[^\S\r\n]]: white space other than the two line-break characters. *)
Definition is_blank (c : Z) : bool :=
  is_space c && negb (c =? Ch.CR) && negb (c =? Ch.LF).

(** The second alternative of the word expression: a round, square or
    curly bracket, a single or double quote, CR or LF. *)
Definition is_bracket (c : Z) : bool :=
  (c =? 40) || (c =? 41) || (c =? 91) || (c =? 93) || (c =? 123)
  || (c =? 125) || (c =? 39) || (c =? 34) || (c =? Ch.CR) || (c =? Ch.LF).

(** The class [\w], which decides where [\b] matches. *)
Definition is_w (c : Z) : bool :=
  in_range 97 122 c || in_range 65 90 c || in_range 48 57 c || (c =? 95).

(** The character class of the [words] expression (line 520).  All its
    ranges lie below the surrogates, so testing code units agrees with the
    code-point matching of the [u] flag. *)
Definition is_word_class (c : Z) : bool :=
  in_range 97 122 c || in_range 65 90 c || in_range 192 255 c
  || in_range 216 246 c || in_range 248 710 c || in_range 712 727 c
  || in_range 734 767 c || in_range 7680 7935 c.

(** [words.test(s)]: [^[...]+$]. *)
Definition words (s : jsstring) : bool :=
  negb (bool_decide (s = [])) && forallb is_word_class s.

(** [string.replaceAll(c, rep)] for a one-character pattern [c]. *)
Definition replaceAll (c : Z) (rep : jsstring) (s : jsstring) : jsstring :=
  flat_map (fun x => if x =? c then rep else [x]) s.

(** [string.replaceAll(/\r\n|\r|\n/g, ...)] with the callback of line 510:
    at each position the alternatives are tried in the order
    [\r\n], [\r], [\n]. *)
Fixpoint replace_breaks (s : jsstring) : jsstring :=
  match s with
  | [] => []
  | c :: s' =>
      if c =? Ch.CR then
        match s' with
        | c2 :: s'' =>
            if c2 =? Ch.LF
            then [Ch.backslash; Ch.r; Ch.backslash; Ch.n; Ch.CR; Ch.LF]
                   ++ replace_breaks s''
            else [Ch.backslash; Ch.r] ++ replace_breaks s'
        | [] => [Ch.backslash; Ch.r] ++ replace_breaks s'
        end
      else if c =? Ch.LF then
        [Ch.backslash; Ch.n; Ch.LF] ++ replace_breaks s'
      else c :: replace_breaks s'
  end.

(** Lines 500-512. *)
Definition unescape (s : jsstring) : jsstring :=
  replace_breaks
    (replaceAll Ch.VT [Ch.backslash; Ch.v]
      (replaceAll Ch.TAB [Ch.backslash; Ch.t]
        (replaceAll Ch.FF [Ch.backslash; Ch.f]
          (replaceAll Ch.BS [Ch.backslash; Ch.b] s)))).

(** *** [String.prototype.split] with a regular expression

    A matcher stands for one sticky match attempt of an expression of the
    form [(...)], whose single group captures the whole match: given the
    code unit before the position (if any) and the text from the position
    on, it returns the length of the match. *)
Definition matcher : Type := option Z -> jsstring -> option nat.

(** [/(\n|\r\n)/] *)
Definition line_sep : matcher := fun _ rest =>
  match rest with
  | c :: rest' =>
      if c =? Ch.LF then Some 1%nat
      else if c =? Ch.CR then
        match rest' with
        | c2 :: _ => if c2 =? Ch.LF then Some 2%nat else None
        | [] => None
        end
      else None
  | [] => None
  end.

(** Length of the longest prefix whose elements satisfy [p]. *)
Fixpoint run_length (p : Z -> bool) (s : jsstring) : nat :=
  match s with
  | c :: s' => if p c then S (run_length p s') else O
  | [] => O
  end.

Definition is_w_opt (o : option Z) : bool :=
  match o with Some c => is_w c | None => false end.

(** The expression of line 517: a run of blanks, or one character of
    [is_bracket], or the empty match [\b] at a word boundary. *)
Definition word_sep : matcher := fun prev rest =>
  match rest with
  | c :: _ =>
      if is_blank c then Some (run_length is_blank rest)
      else if is_bracket c then Some 1%nat
      else if xorb (is_w_opt prev) (is_w c) then Some 0%nat
      else None
  | [] => if is_w_opt prev then Some 0%nat else None
  end.

(** State of the loop of [split]: with [p] and [q] the two indices of the
    ECMAScript algorithm, [sout] is the array built so far, [spq] is
    [S[p..q)], [srest] is [S[q..)] and [sprev] is [S[q-1]]. *)
Record SplitState : Type :=
  mkSplit { sout : list jsstring; spq : jsstring; sprev : option Z;
            srest : jsstring }.

Definition is_nil {A : Type} (l : list A) : bool :=
  match l with [] => true | _ => false end.

(** [q < size] *)
Definition split_cond (st : SplitState) : bool := negb (is_nil (srest st)).

(** One step: no match at [q], or an empty match at [q = p], advances [q];
    any other match emits [S[p..q)] and the capture and moves [p] and [q]
    to its end. *)
Definition split_body (m : matcher) (st : SplitState) : option SplitState :=
  match srest st with
  | [] => None
  | c :: rest' =>
      let advance := Some (mkSplit (sout st) (spq st ++ [c]) (Some c) rest') in
      match m (sprev st) (srest st) with
      | None => advance
      | Some l =>
          if (l =? 0)%nat && is_nil (spq st) then advance
          else
            let cap := take l (srest st) in
            Some (mkSplit (sout st ++ [spq st; cap]) []
                    (match last cap with
                     | Some c' => Some c'
                     | None => sprev st
                     end)
                    (drop l (srest st)))
      end
  end.

Definition split (m : matcher) (s : jsstring) : option (list jsstring) :=
  if is_nil s then
    match m None [] with Some _ => Some [] | None => Some [s] end
  else
    st ← while_ (2 * length s) split_cond (split_body m)
           (mkSplit [] [] None s);
    Some (sout st ++ [spq st]).

(** *** [tokenize] *)

(** A string is falsy when it is empty; so is [undefined]. *)
Definition falsy (o : option jsstring) : bool :=
  match o with Some s => is_nil s | None => true end.

(** [words.test(x)] for an array element [x]; [undefined] is converted to
    the string "undefined", which consists of letters. *)
Definition words_test (o : option jsstring) : bool :=
  match o with Some s => words s | None => true end.

(** Lines 523-532; the state is [(i, tokens)]. *)
Definition join_cond (st : Z * list jsstring) : bool :=
  st.1 <? len st.2 - 1.

Definition join_body (st : Z * list jsstring) : option (Z * list jsstring) :=
  let i := st.1 in
  let tokens := st.2 in
  if falsy (at_ tokens (i + 1)) && negb (falsy (at_ tokens (i + 2)))
     && words_test (at_ tokens i) && words_test (at_ tokens (i + 2))
  then
    ti ← at_ tokens i;
    ti2 ← at_ tokens (i + 2);
    let tokens1 := <[Z.to_nat i := ti ++ ti2]> tokens in
    let tokens2 :=
      take (Z.to_nat (i + 1)) tokens1 ++ drop (Z.to_nat (i + 1) + 2) tokens1 in
    Some ((i - 1) + 1, tokens2)
  else Some (i + 1, tokens).

(** Lines 539-541: [if (!lines[lines.length - 1]) lines.pop()]. *)
Definition pop_if_empty (lines : list jsstring) : list jsstring :=
  if falsy (at_ lines (len lines - 1)) then removelast lines else lines.

(** [tokens[tokens.length - 1] += x]; on an empty array the assignment
    creates no element. *)
Definition append_to_last (tokens : list jsstring) (x : jsstring)
    : list jsstring :=
  match last tokens with
  | Some l => removelast tokens ++ [l ++ x]
  | None => tokens
  end.

(** Lines 544-550; the state is [(i, tokens)]. *)
Definition merge_step (st : Z * list jsstring) (line : jsstring)
    : Z * list jsstring :=
  (st.1 + 1,
   if negb (st.1 mod 2 =? 0) then append_to_last st.2 line
   else st.2 ++ [line]).

Definition tokenize (string : jsstring) (wordDiff : bool)
    : option (list jsstring) :=
  if wordDiff then
    tokens ← split word_sep string;
    st ← while_ (length tokens) join_cond join_body (0, tokens);
    Some (List.filter (fun token => negb (is_nil token)) st.2)
  else
    lines ← split line_sep string;
    Some (fold_left merge_step (pop_if_empty lines) (0, [])).2.

(** ** [createDetails] and [diffstr] *)

(** [/\s+/.test(s)]: the expression is not anchored, so it looks for white
    space anywhere in [s]. *)
Definition has_space (s : jsstring) : bool := existsb is_space s.

(** Lines 557-575. *)
Definition createDetails (line : DiffResult jsstring)
    (tokens : list (DiffResult jsstring)) : list (DiffResult jsstring) :=
  let t := filter (fun r => type r = type line ∨ type r = common) tokens in
  imap (fun i result =>
          match at_ t (Z.of_nat i - 1) with
          | Some before =>
              if bool_decide (type result = common)
                 && bool_decide (Some (type before)
                                 = type <$> at_ t (Z.of_nat i + 1))
                 && has_space (value result)
              then with_type result (type before)
              else result
          | None => result
          end) t.

(** [s.trim()] *)
Fixpoint drop_space (s : jsstring) : jsstring :=
  match s with
  | c :: s' => if is_space c then drop_space s' else s
  | [] => []
  end.

Definition trim (s : jsstring) : jsstring :=
  reverse (drop_space (reverse (drop_space s))).

(** Lines 607-609. *)
Definition shares_word (tokens : list (DiffResult jsstring)) : bool :=
  existsb (fun r => bool_decide (type r = common)
                    && negb (is_nil (trim (value r)))) tokens.

(** The entries of [diffResult] are objects shared with [added] and
    [removed]; the model keeps [diffResult] as the store and lets the two
    work lists hold indices into it. *)
Definition indices_of (ty : DiffType) (res : list (DiffResult jsstring))
    : list nat :=
  (List.filter (fun ir => bool_decide (type ir.2 = ty))
     (imap (fun i r => (i, r)) res)).*1.

(** State of the [while (bLines.length)] loop of lines 600-613:
    the remaining [bLines], the current [tokens] and [b], and whether the
    loop was left by [break]. *)
Record PairState : Type :=
  mkPair { pb_lines : list nat; ptokens : list (DiffResult jsstring);
           pb : option nat; pbreak : bool }.

Definition pair_cond (st : PairState) : bool :=
  negb (pbreak st) && negb (is_nil (pb_lines st)).

Definition pair_body (store : list (DiffResult jsstring)) (a_value : jsstring)
    (st : PairState) : option PairState :=
  match pb_lines st with
  | [] => None
  | ib :: rest =>
      b ← store !! ib;
      ta ← tokenize a_value true;
      tb ← tokenize (value b) true;
      tokens ← diff ta tb;
      Some (mkPair rest tokens (Some ib) (shares_word tokens))
  end.

Definition set_details (store : list (DiffResult jsstring)) (i : nat)
    (tokens : list (DiffResult jsstring))
    : option (list (DiffResult jsstring)) :=
  r ← store !! i;
  Some (<[i := with_details r (createDetails r tokens)]> store).

(** Lines 596-619: one pass of [for (const a of aLines)]; the state is the
    store and the remaining [bLines]. *)
Definition word_diff_step
    (acc : option (list (DiffResult jsstring) * list nat)) (ia : nat)
    : option (list (DiffResult jsstring) * list nat) :=
  '(store, bLines) ← acc;
  a ← store !! ia;
  st ← while_ (length bLines) pair_cond (pair_body store (value a))
         (mkPair bLines [] None false);
  store1 ← set_details store ia (ptokens st);
  store2 ← match pb st with
           | Some ib => set_details store1 ib (ptokens st)
           | None => Some store1
           end;
  Some (store2, pb_lines st).

(** Lines 499-622. *)
Definition diffstr (A B : jsstring) : option (list (DiffResult jsstring)) :=
  ta ← tokenize (unescape A ++ [Ch.LF]) false;
  tb ← tokenize (unescape B ++ [Ch.LF]) false;
  diffResult ← diff ta tb;
  let added_ := indices_of added diffResult in
  let removed_ := indices_of removed diffResult in
  let aLines := if (length added_ <? length removed_)%nat
                then added_ else removed_ in
  let bLines := if (length added_ <? length removed_)%nat
                then removed_ else added_ in
  r ← fold_left word_diff_step aLines (Some (diffResult, bLines));
  Some r.1.


(** ** Vocabulary of the statements *)

(** Applying an edit script: the entries that are not [removed] give, in
    order, the values of the target sequence. *)
Definition patch {T : Type} (script : list (DiffResult T)) : list T :=
  value <$> List.filter (fun r => negb (bool_decide (type r = removed)))
              script.

(** The inverse mapping: the entries that are not [added] give back the
    source sequence. *)
Definition unpatch {T : Type} (script : list (DiffResult T)) : list T :=
  value <$> List.filter (fun r => negb (bool_decide (type r = added)))
              script.

(** Number of entries of a script that are not [common]. *)
Definition edits {T : Type} (script : list (DiffResult T)) : nat :=
  length (List.filter (fun r => negb (bool_decide (type r = common)))
            script).

(** Length of a longest common subsequence, and the edit distance with
    insertions and deletions only. *)
Fixpoint lcs {T : Type} `{EqDecision T} (a b : list T) : nat :=
  match a with
  | [] => O
  | x :: a' =>
      (fix inner (b : list T) : nat :=
         match b with
         | [] => O
         | y :: b' =>
             if decide (x = y) then S (lcs a' b')
             else Nat.max (lcs a' b) (inner b')
         end) b
  end.

Definition edit_distance {T : Type} `{EqDecision T} (a b : list T) : nat :=
  (length a + length b - 2 * lcs a b)%nat.

(** The lengths [(start, end)] of the common prefix and suffix found by
    lines 157-176 of [diffSequence]. *)
Definition affixes {T : Type} `{EqDecision T} (a b : list T)
    : option (Z * Z) :=
  let minLen := if len a >? len b then len b else len a in
  p ← prefix_loop a b minLen;
  q ← suffix_loop a b (minLen - p.1);
  Some (p.1, len q.2).

(** [a.slice(start, a.length - end)]: what the trimming leaves of [a]. *)
Definition core {T : Type} (a : list T) (start end_ : Z) : list T :=
  take (Z.to_nat (len a - start - end_)) (drop (Z.to_nat start) a).

(** Every cell of a typed array holds a non-negative number. *)
Definition nonneg_all (v : list Z) : Prop := Forall (fun z => 0 <= z) v.

(** The array that [split] builds for the line expression, read off the
    text: [pq] is the piece under construction. *)
Fixpoint pieces_from (pq rest : jsstring) : list jsstring :=
  match rest with
  | [] => [pq]
  | c :: rest' =>
      if c =? Ch.LF then pq :: [Ch.LF] :: pieces_from [] rest'
      else if c =? Ch.CR then
        match rest' with
        | c2 :: rest'' =>
            if c2 =? Ch.LF
            then pq :: [Ch.CR; Ch.LF] :: pieces_from [] rest''
            else pieces_from (pq ++ [c]) rest'
        | [] => pieces_from (pq ++ [c]) rest'
        end
      else pieces_from (pq ++ [c]) rest'
  end.

(** The line tokens of a text, read off the text: a token ends after each
    LF, and what follows the last LF is a token unless it is empty. *)
Fixpoint lines_of (cur s : jsstring) : list jsstring :=
  match s with
  | [] => if is_nil cur then [] else [cur]
  | c :: s' =>
      if c =? Ch.LF then (cur ++ [c]) :: lines_of [] s'
      else lines_of (cur ++ [c]) s'
  end.

(** The four [replaceAll] calls of [unescape] for the control characters. *)
Definition escape_controls (s : jsstring) : jsstring :=
  replaceAll Ch.VT [Ch.backslash; Ch.v]
    (replaceAll Ch.TAB [Ch.backslash; Ch.t]
      (replaceAll Ch.FF [Ch.backslash; Ch.f]
        (replaceAll Ch.BS [Ch.backslash; Ch.b] s))).

(** Lines 578-581: the line tokens that [diffstr] computes for a text. *)
Definition line_tokens (text : jsstring) : option (list jsstring) :=
  tokenize (unescape text ++ [Ch.LF]) false.

(** The terminator [term], standing between [pre] and [post], produces a
    line-token boundary: the line tokens of the whole text are those of the
    text up to and including the terminator, followed by those of the
    rest. *)
Definition boundary_after (pre term post : jsstring) : Prop :=
  exists t1 t2,
    tokenize (unescape (pre ++ term)) false = Some t1
    /\ line_tokens post = Some t2
    /\ line_tokens (pre ++ term ++ post) = Some (t1 ++ t2).

(** A string that is not empty and consists of white space only. *)
Definition pure_space (s : jsstring) : bool :=
  negb (is_nil s) && forallb is_space s.

(** A string without white space. *)
Definition no_space (s : jsstring) : bool :=
  forallb (fun c => negb (is_space c)) s.

(** The shape of the tokens that the word mode of [tokenize] produces: not
    empty, and either white space throughout or free of white space. *)
Definition word_shape (s : jsstring) : bool :=
  negb (is_nil s) && (forallb is_space s || no_space s).

(** A word token: one of the tokens that the word mode of [tokenize]
    returns for some text. *)
Definition is_word_token (v : jsstring) : Prop :=
  exists (text : jsstring) (tokens : list jsstring),
    tokenize text true = Some tokens /\ v ∈ tokens.

(** What [split] emits in word mode: like a word token, but possibly
    empty. *)
Definition piece (s : jsstring) : bool := forallb is_space s || no_space s.

(** The entries that [createDetails] keeps for a line. *)
Definition relevant (line r : DiffResult jsstring) : Prop :=
  type r = type line \/ type r = common.

(** The detail-merge step in the words of the specification: a [common]
    token that is purely white space and whose two neighbours are entries
    of one and the same kind other than [common] takes that kind; every
    other token stays as it is. *)
Definition merge_spaces (t : list (DiffResult jsstring))
    : list (DiffResult jsstring) :=
  imap (fun i r =>
          match i with
          | O => r
          | S j =>
              match t !! j, t !! S (S j) with
              | Some before, Some after =>
                  if bool_decide (type r = common)
                     && pure_space (value r)
                     && bool_decide (type before = type after)
                     && negb (bool_decide (type before = common))
                  then with_type r (type before)
                  else r
              | _, _ => r
              end
          end) t.

(** The invariant of the loop over the diagonals at depth [d]: the buffer
    keeps its size and its sign, and [k] stays right of its first value. *)
Definition k_inv (max d mMax : Z) (st : KState) : Prop :=
  nonneg_all (kv st) /\ len (kv st) = 2 * max + 1
  /\ - (d - 2 * mMax) <= kk st.

(** The invariant of the [search] loop. *)
Definition search_inv (max : Z) (st : SearchState) : Prop :=
  nonneg_all (sv st) /\ len (sv st) = 2 * max + 1
  /\ 0 <= sd st <= max.

(** ** Further functions of the module *)

Section CreateCommon.
Context {T : Type} `{EqDecision T}.

(** [reverse ? l.length - i - 1 : i] *)
Definition common_index (l : list T) (reverse : bool) (i : Z) : Z :=
  if reverse then len l - i - 1 else i.

(** Lines 38-46: the loop of [createCommon]; the state is [(i, common)]
    and the [return] of the [else] branch is folded into the loop test. *)
Definition createCommon_cond (A B : list T) (reverse : bool)
    (s : Z * list T) : bool :=
  (s.1 <? Z.min (len A) (len B))
  && same A B (common_index A reverse s.1) (common_index B reverse s.1).

Definition createCommon_body (A : list T) (reverse : bool) (s : Z * list T)
    : option (Z * list T) :=
  x ← at_ A (common_index A reverse s.1);
  Some (s.1 + 1, s.2 ++ [x]).

(** Lines 35-48. *)
Definition createCommon (A B : list T) (reverse : bool) : option (list T) :=
  if (len A =? 0) || (len B =? 0) then Some []
  else
    s ← while_ (Z.to_nat (Z.min (len A) (len B)))
          (createCommon_cond A B reverse) (createCommon_body A reverse)
          (0, []);
    Some s.2.

End CreateCommon.

(** The colour functions come from [fmt/colors.ts], which is not part of
    the module; they are parameters of the embedding. *)
Section BuildMessage.
Variables bgGreen bgRed bold gray green red white : jsstring -> jsstring.

(** Lines 628-645; the assignment of line 635 overrides the option. *)
Definition createColor (diffType : DiffType) (background : bool)
    : jsstring -> jsstring :=
  let background := false in
  match diffType with
  | added => fun s => if background then bgGreen (white s) else green (bold s)
  | removed => fun s => if background then bgRed (white s) else red (bold s)
  | common => white
  end.

(** Lines 651-660. *)
Definition createSign (diffType : DiffType) : jsstring :=
  match diffType with
  | added => [43; 32; 32; 32]
  | removed => [45; 32; 32; 32]
  | common => [32; 32; 32; 32]
  end.

(** Line 670: the heading with the words [Diff], Actual and Expected. *)
Definition heading : jsstring :=
  [32; 32; 32; 32] ++ gray (bold [91; 68; 105; 102; 102; 93]) ++ [32]
  ++ red (bold [65; 99; 116; 117; 97; 108]) ++ [32; 47; 32]
  ++ green (bold [69; 120; 112; 101; 99; 116; 101; 100]).

(** Lines 678-682: the text of a line, from its details when it has
    some. *)
Definition line_text (result : DiffResult jsstring) : jsstring :=
  match details result with
  | Some ds =>
      concat
        (map (fun detail =>
                if bool_decide (type detail <> common)
                then createColor (type detail) true (value detail)
                else value detail) ds)
  | None => value result
  end.

(** Lines 676-684: the callback of [forEach]. *)
Definition render (result : DiffResult jsstring) : jsstring :=
  createColor (type result) false
    (createSign (type result) ++ line_text result).

(** Lines 662-689. *)
Definition buildMessage (diffResult : list (DiffResult jsstring))
    (stringDiff : bool) : list jsstring :=
  let diffMessages := map render diffResult in
  [[]; []; heading; []; []]
    ++ (if stringDiff then [concat diffMessages] else diffMessages)
    ++ [[]].

End BuildMessage.

(** ** Vocabulary of the further properties *)

(** Number of LF characters of a text. *)
Definition count_LF (s : jsstring) : nat :=
  length (List.filter (fun c => c =? Ch.LF) s).

(** Every CR of the text is directly followed by LF. *)
Fixpoint no_bare_CR (s : jsstring) : bool :=
  match s with
  | [] => true
  | c :: s' =>
      (if c =? Ch.CR then bool_decide (head s' = Some Ch.LF) else true)
      && no_bare_CR s'
  end.

(** The callback that [createDetails] maps over the filtered array [t]
    (lines 563-574). *)
Definition retag (t : list (DiffResult jsstring)) (i : nat)
    (result : DiffResult jsstring) : DiffResult jsstring :=
  match at_ t (Z.of_nat i - 1) with
  | Some before =>
      if bool_decide (type result = common)
         && bool_decide (Some (type before)
                         = type <$> at_ t (Z.of_nat i + 1))
         && has_space (value result)
      then with_type result (type before)
      else result
  | None => result
  end.

(** A bound on how far the search can have come without a diagonal step:
    every cell [v[k + max]] holds an [x] with [x + (x - k)] at most [D],
    and cells left of diagonal [-D] are still zero. *)
Definition reach_bound (max D : Z) (v : list Z) : Prop :=
  forall k z, rd v (k + max) = Some z -> 2 * z <= k + Z.max D (- k).

(** The same during the pass at depth [d]: only the diagonals of the
    parity of [d] may already hold a point of depth [d]. *)
Definition reach_bound_during (max d : Z) (v : list Z) : Prop :=
  forall k z,
    rd v (k + max) = Some z ->
    2 * z <= k + Z.max (if (k + d) mod 2 =? 0 then d else d - 1) (- k).

(** No element of the core of [a] occurs in [b]. *)
Definition core_disjoint {T : Type} (a b : list T) (start n : Z) : Prop :=
  forall x y, 0 <= x < n -> at_ a (x + start) <> at_ b y.

(** A character that the word expression does not split at by itself:
    neither a blank nor one of the bracket class. *)
Definition is_plain (c : Z) : bool := negb (is_blank c) && negb (is_bracket c).

(** The three kinds of word tokens: a run of blanks, a single character
    of the bracket class, and a run of plain characters. *)
Definition token_kind (t : jsstring) : bool :=
  forallb is_blank t
  || (match t with [c] => is_bracket c | _ => false end)
  || forallb is_plain t.

(** A character that [unescape] leaves as it is. *)
Definition is_ordinary (c : Z) : bool :=
  negb ((c =? Ch.BS) || (c =? Ch.FF) || (c =? Ch.TAB) || (c =? Ch.VT)
        || (c =? Ch.CR) || (c =? Ch.LF)).

(** The array that [split] builds from pieces that each end at an empty
    match: every piece is followed by the empty capture. *)
Definition with_empty_captures (ps : list jsstring) : list jsstring :=
  concat (map (fun p => [p; []]) ps).

(** The same array read from its second element on: every further piece
    is preceded by an empty capture. *)
Definition after_empty_captures (ps : list jsstring) : list jsstring :=
  concat (map (fun p => [[]; p]) ps).

(** The four control characters that [unescape] replaces first, each with
    the letter of its marker. *)
Definition control_markers : list (Z * Z) :=
  [(Ch.BS, Ch.b); (Ch.FF, Ch.f); (Ch.TAB, Ch.t); (Ch.VT, Ch.v)].

(** One of the four control characters that [unescape] replaces first. *)
Definition is_control (c : Z) : bool :=
  (c =? Ch.BS) || (c =? Ch.FF) || (c =? Ch.TAB) || (c =? Ch.VT).

(** * Properties *)

(** ** The loop combinator *)

Section While.
Context {St : Type} (cond : St -> bool) (body : St -> option St).

(** Loop rule with an invariant and a variant: when every pass from a
    state of the invariant succeeds, keeps the invariant and decreases
    the variant, fuel above the variant is enough for the loop to finish,
    in a state of the invariant where the test fails. *)
Lemma while_spec (I : St -> Prop) (mu : St -> nat) :
  (forall s, I s -> cond s = true ->
     exists s', body s = Some s' /\ I s' /\ (mu s' < mu s)%nat) ->
  forall fuel s, I s -> (mu s <= fuel)%nat ->
  exists s', while_ fuel cond body s = Some s' /\ I s' /\ cond s' = false.
Proof.
  intros Hstep fuel.
  induction fuel as [|f IH]; intros s HI Hmu; simpl.
  - destruct (cond s) eqn:Hc; [|eauto].
    destruct (Hstep s HI Hc) as (s' & _ & _ & Hlt). lia.
  - destruct (cond s) eqn:Hc; [|eauto].
    destruct (Hstep s HI Hc) as (s' & -> & HI' & Hlt).
    apply IH; [done|lia].
Qed.

(** Partial correctness alone: whatever the fuel, a finished loop ends in
    a state of the invariant where the test fails. *)
Lemma while_inv (I : St -> Prop) :
  (forall s s', I s -> cond s = true -> body s = Some s' -> I s') ->
  forall fuel s s', I s -> while_ fuel cond body s = Some s' ->
  I s' /\ cond s' = false.
Proof.
  intros Hstep fuel.
  induction fuel as [|f IH]; intros s s' HI; simpl.
  - destruct (cond s) eqn:Hc; [done|]. by intros [= <-].
  - destruct (cond s) eqn:Hc; [|by intros [= <-]].
    destruct (body s) as [s1|] eqn:Hb; [|done].
    apply IH. eauto.
Qed.
(** A loop whose test fails at once returns its state. *)
Lemma while_done (fuel : nat) (s : St) :
  cond s = false -> while_ fuel cond body s = Some s.
Proof. intros Hc. destruct fuel; simpl; by rewrite Hc. Qed.
End While.

(** ** Array accesses *)

Lemma len_nonneg {A : Type} (l : list A) : 0 <= len l.
Proof. unfold len. lia. Qed.

Lemma at_is_Some {A : Type} (l : list A) (i : Z) :
  0 <= i < len l -> is_Some (at_ l i).
Proof.
  unfold at_, len. intros Hi.
  destruct (Z.ltb_spec i 0); [lia|].
  apply lookup_lt_is_Some. lia.
Qed.

Lemma at_Some_inv {A : Type} (l : list A) (i : Z) (x : A) :
  at_ l i = Some x -> 0 <= i < len l /\ l !! Z.to_nat i = Some x.
Proof.
  unfold at_, len. destruct (Z.ltb_spec i 0); [done|].
  intros Hl. split; [|done]. apply lookup_lt_Some in Hl. lia.
Qed.

Lemma at_of_nat {A : Type} (l : list A) (i : nat) :
  at_ l (Z.of_nat i) = l !! i.
Proof.
  unfold at_. destruct (Z.ltb_spec (Z.of_nat i) 0); [lia|].
  by rewrite Nat2Z.id.
Qed.

Lemma at_neg {A : Type} (l : list A) (i : Z) : i < 0 -> at_ l i = None.
Proof. unfold at_. intros. by destruct (Z.ltb_spec i 0); [|lia]. Qed.

Lemma rd_nonneg (v : list Z) (i z : Z) :
  nonneg_all v -> rd v i = Some z -> 0 <= z.
Proof.
  intros Hv Hr. apply at_Some_inv in Hr as [_ Hl].
  eapply Forall_lookup_1 in Hv; eauto.
Qed.

Lemma rd_is_Some (v : list Z) (i : Z) : 0 <= i < len v -> is_Some (rd v i).
Proof. apply at_is_Some. Qed.

Lemma wr_Some (v : list Z) (i x : Z) :
  0 <= i < len v ->
  wr v i x = Some (<[Z.to_nat i := x mod 2 ^ 32]> v).
Proof.
  intros Hi. unfold wr.
  destruct (Z.leb_spec 0 i); [|lia].
  destruct (Z.ltb_spec i (len v)); [done|lia].
Qed.

Lemma nonneg_all_insert (v : list Z) (i : nat) (x : Z) :
  nonneg_all v -> nonneg_all (<[i := x mod 2 ^ 32]> v).
Proof.
  intros Hv. apply Forall_insert; [done|].
  apply Z.mod_pos_bound. lia.
Qed.

(** ** [diffSequence] is total and returns the empty array *)

Section DiffSequenceFacts.
Context {T : Type} `{EqDecision T}.
Implicit Types a b : list T.

Lemma prefix_loop_total a b (minLen : Z) :
  minLen <= len a ->
  exists s, prefix_loop a b minLen = Some s
            /\ 0 <= s.1 /\ s.1 <= Z.max 0 minLen.
Proof.
  intros Hmin. unfold prefix_loop.
  destruct (while_spec (prefix_cond a b minLen) (prefix_body a)
              (fun s => 0 <= s.1 <= Z.max 0 minLen)
              (fun s => Z.to_nat (minLen - s.1))) with
    (fuel := Z.to_nat minLen) (s := (0, @nil (DiffResult T)))
    as (s & Hs & HI & _).
  - intros [i acc] Hi Hc. unfold prefix_cond in Hc. simpl in *.
    apply andb_true_iff in Hc as [Hlt _]. apply Z.ltb_lt in Hlt.
    unfold prefix_body. simpl.
    destruct (at_is_Some a i) as [x ->]; [lia|]. simpl.
    eexists. split; [done|]. simpl. lia.
  - simpl. lia.
  - simpl. lia.
  - exists s. split; [done|lia].
Qed.

Lemma suffix_loop_total a b (endLimit : Z) :
  endLimit <= len a ->
  exists s, suffix_loop a b endLimit = Some s /\ len s.2 = s.1 - 1
            /\ 0 <= len s.2 <= Z.max 0 endLimit.
Proof.
  intros Hlim. unfold suffix_loop.
  destruct (while_spec (suffix_cond a b endLimit) (suffix_body a)
              (fun s => 1 <= s.1 <= Z.max 1 (endLimit + 1)
                        /\ len s.2 = s.1 - 1)
              (fun s => Z.to_nat (endLimit + 1 - s.1))) with
    (fuel := Z.to_nat endLimit) (s := (1, @nil (DiffResult T)))
    as (s & Hs & HI & _).
  - intros [i acc] [Hi Hacc] Hc. unfold suffix_cond in Hc. simpl in *.
    apply andb_true_iff in Hc as [Hlt _]. apply Z.ltb_lt in Hlt.
    unfold suffix_body. simpl.
    destruct (at_is_Some a (len a - i)) as [x ->]; [lia|]. simpl.
    eexists. split; [done|]. simpl.
    unfold len in *. rewrite length_app. simpl. lia.
  - simpl. unfold len. simpl. lia.
  - simpl. lia.
  - exists s. split; [done|]. lia.
Qed.

Lemma snake_total a b (start n m x y : Z) :
  0 <= x ->
  exists xy, snake a b start n m (x, y) = Some xy /\ x <= xy.1.
Proof.
  intros Hx. unfold snake.
  destruct (while_spec (snake_cond a b start n m) snake_body
              (fun s => x <= s.1)
              (fun s => Z.to_nat (n - s.1))) with
    (fuel := Z.to_nat n) (s := (x, y)) as (s & Hs & HI & _).
  - intros [x1 y1] Hx1 Hc. unfold snake_cond in Hc. simpl in *.
    apply andb_true_iff in Hc as [Hc _].
    apply andb_true_iff in Hc as [Hlt _]. apply Z.ltb_lt in Hlt.
    eexists. split; [done|]. simpl. lia.
  - simpl. lia.
  - simpl. lia.
  - eauto.
Qed.

Lemma choose_x_total (v : list Z) (max d k : Z) :
  nonneg_all v -> len v = 2 * max + 1 ->
  0 <= d < max -> - d <= k <= d ->
  exists x, choose_x v max d k = Some x /\ 0 <= x.
Proof.
  intros Hv Hlen Hd Hk. unfold choose_x.
  destruct (rd_is_Some v (k + 1 + max)) as [hi Hhi]; [lia|].
  destruct (rd_is_Some v (k - 1 + max)) as [lo Hlo]; [lia|].
  replace (max + (k - 1)) with (k - 1 + max) by lia.
  pose proof (rd_nonneg _ _ _ Hv Hhi). pose proof (rd_nonneg _ _ _ Hv Hlo).
  rewrite Hhi, Hlo. simpl.
  repeat case_bool_decide; try destruct (lo <? hi);
    eexists; (split; [done|lia]).
Qed.

Lemma k_body_total a b (start n m max d mMax nMax : Z) (st : KState) :
  0 <= d < max -> 0 <= mMax -> 0 <= nMax ->
  k_inv max d mMax st -> k_cond d nMax st = true ->
  exists st', k_body a b start n m max d st = Some st'
    /\ k_inv max d mMax st'
    /\ (kfound st' = true \/ kk st' = kk st + 2).
Proof.
  intros Hd HmMax HnMax (Hv & Hlen & Hk) Hc.
  unfold k_cond in Hc. apply andb_true_iff in Hc as [_ Hlt].
  apply Z.ltb_lt in Hlt. unfold k_body.
  destruct (choose_x_total (kv st) max d (kk st)) as (x & -> & Hx);
    [done|done|lia|lia|]. simpl.
  destruct (snake_total a b start n m x (x - kk st)) as (xy & -> & Hxy);
    [done|]. simpl.
  rewrite wr_Some by lia. simpl.
  destruct ((xy.1 >=? n) && (xy.2 >=? m)); eexists; (split; [done|]);
    (split; [|simpl; auto]); unfold k_inv; simpl;
    rewrite ?length_insert; unfold len in *; rewrite ?length_insert;
    (split; [by apply nonneg_all_insert|]); lia.
Qed.

Lemma k_loop_total a b (start n m max d mMax nMax : Z) (v : list Z) :
  0 <= d < max -> 0 <= mMax -> 0 <= nMax ->
  nonneg_all v -> len v = 2 * max + 1 ->
  exists ks,
    while_ (Z.to_nat max) (k_cond d nMax) (k_body a b start n m max d)
      (mkK v (- (d - 2 * mMax)) false) = Some ks
    /\ nonneg_all (kv ks) /\ len (kv ks) = 2 * max + 1.
Proof.
  intros Hd HmMax HnMax Hv Hlen.
  destruct (while_spec (k_cond d nMax) (k_body a b start n m max d)
              (k_inv max d mMax)
              (fun st => if kfound st then O
                         else Z.to_nat ((d - 2 * nMax + 2 - kk st) / 2)))
    with (fuel := Z.to_nat max) (s := mkK v (- (d - 2 * mMax)) false)
    as (ks & Hks & (Hv' & Hlen' & _) & _).
  - intros st Hinv Hc.
    destruct (k_body_total a b start n m max d mMax nMax st)
      as (st' & Hb & Hinv' & Hnext); [done..|].
    exists st'. split; [done|]. split; [done|].
    unfold k_cond in Hc. apply andb_true_iff in Hc as [Hnf Hlt].
    apply negb_true_iff in Hnf. apply Z.ltb_lt in Hlt. rewrite Hnf.
    destruct Hnext as [-> | Hkk].
    + Z.div_mod_to_equations. lia.
    + destruct (kfound st'); rewrite ?Hkk; Z.div_mod_to_equations; lia.
  - unfold k_inv. simpl. split; [done|]. split; [done|lia].
  - simpl. Z.div_mod_to_equations. lia.
  - eauto.
Qed.

Lemma search_body_total a b (start n m max : Z) (st : SearchState) :
  search_inv max st -> search_cond max st = true ->
  exists st', search_body a b start n m max st = Some st'
    /\ search_inv max st'
    /\ (sfound st' = true \/ sd st' = sd st + 1).
Proof.
  intros (Hv & Hlen & Hd) Hc.
  unfold search_cond in Hc. apply andb_true_iff in Hc as [_ Hlt].
  apply Z.ltb_lt in Hlt. unfold search_body.
  set (mMax := if sd st - m >? 0 then sd st - m else 0).
  set (nMax := if sd st - n >? 0 then sd st - n else 0).
  assert (0 <= mMax) by (subst mMax; destruct (Z.gtb_spec (sd st - m) 0); lia).
  assert (0 <= nMax) by (subst nMax; destruct (Z.gtb_spec (sd st - n) 0); lia).
  destruct (k_loop_total a b start n m max (sd st) mMax nMax (sv st))
    as (ks & -> & Hv' & Hlen'); [lia|done..|]. simpl.
  destruct (kfound ks); eexists; (split; [done|]);
    (split; [|simpl; auto]); unfold search_inv; simpl;
    (split; [done|]); (split; [done|lia]).
Qed.

(** The search finishes for every choice of the trimming, after at most
    [n + m] passes. *)
Lemma search_total a b (start end_ : Z) :
  exists st, search a b start end_ = Some st
    /\ 0 <= sd st
         <= Z.max 0 ((len b - start - end_) + (len a - start - end_)).
Proof.
  unfold search.
  set (n := len a - start - end_). set (m := len b - start - end_).
  set (max := m + n).
  destruct (Z.le_gt_cases max 0) as [Hmax|Hmax].
  - eexists. split.
    + apply while_done. unfold search_cond. simpl.
      destruct (Z.ltb_spec 0 max); [lia|done].
    + simpl. lia.
  - destruct (while_spec (search_cond max) (search_body a b start n m max)
                (search_inv max)
                (fun st => if sfound st then O
                           else Z.to_nat (max - sd st)))
      with (fuel := Z.to_nat max)
           (s := mkSearch (replicate (Z.to_nat (2 * max + 1)) 0) [] 0 false)
      as (st & Hst & (_ & _ & Hd) & _).
    + intros st Hinv Hc.
      destruct (search_body_total a b start n m max st)
        as (st' & Hb & Hinv' & Hnext); [done..|].
      exists st'. split; [done|]. split; [done|].
      unfold search_cond in Hc. apply andb_true_iff in Hc as [Hnf Hlt].
      apply negb_true_iff in Hnf. apply Z.ltb_lt in Hlt. rewrite Hnf.
      destruct Hnext as [-> | Hsd]; [lia|].
      destruct (sfound st'); rewrite ?Hsd; lia.
    + unfold search_inv. simpl. split; [by apply Forall_replicate|].
      unfold len. rewrite length_replicate. lia.
    + simpl. lia.
    + exists st. split; [done|lia].
Qed.

Lemma engine_returns_nil a b (start end_ : Z) : engine a b start end_ = Some [].
Proof.
  unfold engine. by destruct (search_total a b start end_) as (st & -> & _).
Qed.

(** On every path [diffSequence] returns the empty array. *)
Lemma diffSequence_returns_nil a b : diffSequence a b = Some [].
Proof.
  unfold diffSequence.
  destruct ((len a =? 0) && (len b =? 0)); [done|].
  set (minLen := if len a >? len b then len b else len a).
  assert (minLen <= len a) as Hmin.
  { subst minLen. destruct (Z.gtb_spec (len a) (len b)); lia. }
  destruct (prefix_loop_total a b minLen Hmin) as (p & -> & Hp0 & Hp1).
  simpl.
  destruct (suffix_loop_total a b (minLen - p.1)) as (q & -> & _);
    [lia|]. simpl.
  destruct (p.1 + len q.2 =? minLen); [done|].
  apply engine_returns_nil.
Qed.
End DiffSequenceFacts.

(** ** [split] and [tokenize] are total *)

Lemma split_total (m : matcher) (s : jsstring) :
  exists r, split m s = Some r.
Proof.
  unfold split. destruct (is_nil s) eqn:Hs.
  { destruct (m None []); eauto. }
  destruct (while_spec split_cond (split_body m) (fun _ => True)
              (fun st => (2 * length (srest st)
                          + (if is_nil (spq st) then 0 else 1))%nat))
    with (fuel := (2 * length s)%nat) (s := mkSplit [] [] None s)
    as (st & -> & _ & _); [| done | simpl; lia | simpl; eauto].
  intros [out pq prev rest] _ Hc. unfold split_cond in Hc. simpl in Hc.
  unfold split_body. simpl.
  destruct rest as [|c rest']; [done|].
  assert (forall l : list Z, is_nil (l ++ [c]) = false) as Hsnoc
    by (by intros []).
  destruct (m prev (c :: rest')) as [l|].
  - destruct ((l =? 0)%nat && is_nil pq) eqn:Hskip.
    + eexists. split; [done|]. split; [done|]. simpl. rewrite Hsnoc.
      destruct (is_nil pq); lia.
    + eexists. split; [done|]. split; [done|]. simpl.
      rewrite length_drop. simpl.
      apply andb_false_iff in Hskip as [Hl | Hpq].
      * apply Nat.eqb_neq in Hl. destruct (is_nil pq); lia.
      * rewrite Hpq. lia.
  - eexists. split; [done|]. split; [done|]. simpl. rewrite Hsnoc.
    destruct (is_nil pq); lia.
Qed.

Lemma falsy_false_Some (o : option jsstring) :
  falsy o = false -> exists t, o = Some t.
Proof. destruct o; [eauto|done]. Qed.

Lemma join_loop_total (tokens : list jsstring) :
  exists st, while_ (length tokens) join_cond join_body (0, tokens) = Some st.
Proof.
  destruct (while_spec join_cond join_body (fun st => 0 <= st.1)
              (fun st => Z.to_nat (len st.2 - st.1)))
    with (fuel := length tokens) (s := (0, tokens))
    as (st & -> & _ & _); [| simpl; lia | unfold len; simpl; lia | eauto].
  intros [i tk] Hi Hc. unfold join_cond in Hc. simpl in *.
  apply Z.ltb_lt in Hc. unfold join_body. simpl.
  destruct (falsy (at_ tk (i + 1)) && negb (falsy (at_ tk (i + 2)))
            && words_test (at_ tk i) && words_test (at_ tk (i + 2)))
    eqn:Hmerge.
  - repeat (apply andb_true_iff in Hmerge as [Hmerge ?]).
    destruct (at_is_Some tk i) as [ti Hti]; [lia|].
    destruct (falsy_false_Some (at_ tk (i + 2))) as [ti2 Hti2];
      [by apply negb_true_iff|].
    apply at_Some_inv in Hti2 as Hrange. destruct Hrange as [Hrange _].
    rewrite Hti, Hti2. simpl.
    eexists. split; [done|]. simpl. split; [lia|].
    unfold len in *. rewrite length_app, length_take, length_drop,
      length_insert. lia.
  - eexists. split; [done|]. simpl. lia.
Qed.

Lemma tokenize_total (s : jsstring) (wordDiff : bool) :
  exists r, tokenize s wordDiff = Some r.
Proof.
  unfold tokenize. destruct wordDiff.
  - destruct (split_total word_sep s) as [tokens ->]. simpl.
    destruct (join_loop_total tokens) as [st ->]. simpl. eauto.
  - destruct (split_total line_sep s) as [lines ->]. simpl. eauto.
Qed.

(** With the engine as it stands, [diffstr] returns the empty array for all
    texts. *)
Lemma diffstr_returns_nil (A B : jsstring) : diffstr A B = Some [].
Proof.
  unfold diffstr.
  destruct (tokenize_total (unescape A ++ [Ch.LF]) false) as [ta ->].
  destruct (tokenize_total (unescape B ++ [Ch.LF]) false) as [tb ->].
  simpl. unfold diff. rewrite diffSequence_returns_nil. reflexivity.
Qed.

(** ** The claims about [diff] and [diffSequence] *)

(** C1.  The round trip does not hold for the script that the public
    [diff] returns: for [A = [1]] and [B = [2]] the script is empty, so
    applying it yields neither [B] from [A] nor [A] from [B]. *)
Lemma diff_roundtrip_fails :
  exists script : list (DiffResult Z),
    diff [1] [2] = Some script
    /\ patch script <> [2] /\ unpatch script <> [1].
Proof. exists []. by vm_compute. Qed.

(** C2.  [diff] is [diffSequence] on every input, and whenever the cores
    left by the trimming differ, [diffSequence] returns the empty array. *)
Theorem diff_is_unfinished_diffSequence {T : Type} `{EqDecision T}
    (A B : list T) :
  diff A B = diffSequence A B
  /\ forall start end_ : Z,
       affixes A B = Some (start, end_) ->
       core A start end_ <> core B start end_ ->
       diffSequence A B = Some [].
Proof. split; [done|]. intros. apply diffSequence_returns_nil. Qed.

Lemma diff_is_unfinished_diffSequence_witness :
  affixes [1; 2; 3] [1; 9; 3] = Some (1, 1)
  /\ core [1; 2; 3] 1 1 <> core [1; 9; 3] 1 1
  /\ diffSequence [1; 2; 3] [1; 9; 3] = Some [].
Proof.
  assert (affixes [1; 2; 3] [1; 9; 3] = Some (1, 1)) as Ha
    by (vm_compute; reflexivity).
  assert (core [1; 2; 3] 1 1 <> core [1; 9; 3] 1 1) as Hc
    by (vm_compute; discriminate).
  split; [exact Ha|]. split; [exact Hc|].
  exact (proj2 (diff_is_unfinished_diffSequence [1; 2; 3] [1; 9; 3])
           1 1 Ha Hc).
Defined.

(** C3.  [diffSequence(A, A)] is not an all-[common] script: for
    [A = [1]] it is the empty array. *)
Lemma diffSequence_identity_fails :
  exists script : list (DiffResult Z),
    diffSequence [1] [1] = Some script
    /\ script <> [entry common 1] /\ length script <> length [1].
Proof. exists []. by vm_compute. Qed.

(** C4.  [diffSequence([], [])] is the empty script, but so are
    [diffSequence([], [1, 2])] and [diffSequence([1, 2], [])], which
    should list two [added], respectively two [removed], entries. *)
Lemma diffSequence_empty_inputs_fail :
  diffSequence (T := Z) [] [] = Some []
  /\ diffSequence [] [1; 2] = Some []
  /\ diffSequence [1; 2] [] = Some []
  /\ [] <> [entry added 1; entry added 2]
  /\ [] <> [entry removed 1; entry removed 2].
Proof. by vm_compute. Qed.

(** C5.  The number of entries that are not [common] is not the edit
    distance: for [A = [1, 2, 3]] and [B = [1, 9, 3]] the distance is 2
    and the script has no entry at all. *)
Lemma diffSequence_minimality_fails :
  exists script : list (DiffResult Z),
    diffSequence [1; 2; 3] [1; 9; 3] = Some script
    /\ edits script = 0%nat
    /\ edit_distance [1; 2; 3] [1; 9; 3] = 2%nat.
Proof. exists []. by vm_compute. Qed.


(** C9.  [diffSequence] returns a result for every pair of sequences, its
    search loop makes at most [n + m] passes, and [tokenize] returns a
    result for every string in both modes. *)
Theorem diff_and_tokenize_total :
  (forall (T : Type) (eqT : EqDecision T) (a b : list T),
     exists r, diffSequence a b = Some r)
  /\ (forall (T : Type) (eqT : EqDecision T) (a b : list T) (start end_ : Z),
        exists st, search a b start end_ = Some st
          /\ 0 <= sd st
               <= Z.max 0 ((len b - start - end_) + (len a - start - end_)))
  /\ (forall (s : jsstring) (wordDiff : bool),
        exists r, tokenize s wordDiff = Some r).
Proof.
  split; [|split].
  - intros. rewrite diffSequence_returns_nil. eauto.
  - intros. apply search_total.
  - apply tokenize_total.
Qed.

(** ** The tokens of the word mode *)

Lemma not_blank_not_bracket (c : Z) :
  is_blank c = false -> is_bracket c = false -> is_space c = false.
Proof.
  unfold is_blank, is_bracket. destruct (is_space c); [|done]. simpl.
  destruct (c =? Ch.CR); simpl; [by rewrite orb_true_r|].
  destruct (c =? Ch.LF); simpl; [by rewrite orb_true_r|done].
Qed.

Lemma is_blank_space (c : Z) : is_blank c = true -> is_space c = true.
Proof. unfold is_blank. by intros [[? _]%andb_true_iff _]%andb_true_iff. Qed.

Lemma word_class_no_space (c : Z) :
  is_word_class c = true -> is_space c = false.
Proof.
  unfold is_word_class, is_space, in_range. intros Hw.
  apply not_true_iff_false. intros Hs.
  repeat rewrite ?orb_true_iff, ?andb_true_iff, ?Z.leb_le, ?Z.eqb_eq in Hw.
  repeat rewrite ?orb_true_iff, ?andb_true_iff, ?Z.leb_le, ?Z.eqb_eq in Hs.
  lia.
Qed.

Lemma words_no_space (s : jsstring) : words s = true -> no_space s = true.
Proof.
  unfold words, no_space. intros [_ Hs]%andb_true_iff.
  induction s as [|c s IH]; [done|]. simpl in *.
  apply andb_true_iff in Hs as [Hc Hs].
  rewrite (word_class_no_space c Hc). simpl. by apply IH.
Qed.

Lemma no_space_app (s1 s2 : jsstring) :
  no_space (s1 ++ s2) = no_space s1 && no_space s2.
Proof. unfold no_space. apply forallb_app. Qed.

Lemma no_space_piece (s : jsstring) : no_space s = true -> piece s = true.
Proof. unfold piece. intros ->. apply orb_true_r. Qed.

Lemma blank_run_space (s : jsstring) :
  forallb is_space (take (run_length is_blank s) s) = true.
Proof.
  induction s as [|c s IH]; [done|]. simpl.
  destruct (is_blank c) eqn:Hc; [|done]. simpl.
  by rewrite (is_blank_space c Hc).
Qed.

Lemma split_word_pieces (s : jsstring) (r : list jsstring) :
  split word_sep s = Some r -> Forall (fun t => piece t = true) r.
Proof.
  unfold split. destruct (is_nil s) eqn:Hs.
  { destruct s; [|done]. simpl. intros [= <-]. by repeat constructor. }
  destruct (while_ _ _ _ _) as [st|] eqn:Hloop; [|done].
  simpl. intros [= <-].
  apply (while_inv split_cond (split_body word_sep)
           (fun st => Forall (fun t => piece t = true) (sout st)
                      /\ no_space (spq st) = true)) in Hloop
    as [[Hout Hpq] _].
  - apply Forall_app. split; [done|].
    constructor; [by apply no_space_piece|done].
  - clear. intros [out pq prev rest] st' [Hout Hpq]. simpl in *.
    intros _. unfold split_body. simpl.
    destruct rest as [|c rest']; [done|].
    assert (is_space c = false ->
            Forall (fun t => piece t = true) out
            /\ no_space (pq ++ [c]) = true) as Hadvance.
    { intros Hc. split; [done|]. rewrite no_space_app, Hpq. simpl.
      by rewrite Hc. }
    unfold word_sep.
    destruct (is_blank c) eqn:Hblank.
    { pose proof (blank_run_space (c :: rest')) as Hrun.
      destruct (run_length is_blank (c :: rest')) as [|l] eqn:Hl;
        [simpl in Hl; by rewrite Hblank in Hl|].
      simpl. intros [= <-]. simpl. split; [|done].
      apply Forall_app. split; [done|].
      constructor; [by apply no_space_piece|].
      constructor; [|done]. unfold piece.
      simpl in Hrun. simpl. by rewrite Hrun. }
    destruct (is_bracket c) eqn:Hbracket.
    { simpl. intros [= <-]. simpl. split; [|done].
      apply Forall_app. split; [done|].
      constructor; [by apply no_space_piece|].
      constructor; [|done]. unfold piece, no_space. simpl.
      by destruct (is_space c). }
    pose proof (not_blank_not_bracket c Hblank Hbracket) as Hc.
    destruct (xorb (is_w_opt prev) (is_w c)).
    + simpl. destruct (is_nil pq).
      * intros [= <-]. simpl. by apply Hadvance.
      * intros [= <-]. simpl. split; [|done].
        apply Forall_app. split; [done|].
        constructor; [by apply no_space_piece|]. by repeat constructor.
    + intros [= <-]. simpl. by apply Hadvance.
  - by split.
Qed.

Lemma join_loop_pieces (fuel : nat) (tokens : list jsstring)
    (st : Z * list jsstring) :
  Forall (fun t => piece t = true) tokens ->
  while_ fuel join_cond join_body (0, tokens) = Some st ->
  Forall (fun t => piece t = true) st.2.
Proof.
  intros Htok Hloop.
  apply (while_inv join_cond join_body
           (fun st => Forall (fun t => piece t = true) st.2)) in Hloop
    as [Hst _]; [done| |done].
  clear. intros [i tk] st' Htk _. unfold join_body. simpl in *.
  destruct (falsy (at_ tk (i + 1)) && negb (falsy (at_ tk (i + 2)))
            && words_test (at_ tk i) && words_test (at_ tk (i + 2)))
    eqn:Hmerge; [|by intros [= <-]].
  repeat (apply andb_true_iff in Hmerge as [Hmerge ?]).
  destruct (at_ tk i) as [ti|]; [|done].
  destruct (at_ tk (i + 2)) as [ti2|]; [|done].
  simpl in *. intros [= <-]. simpl.
  apply Forall_app. split; [apply Forall_take | apply Forall_drop];
    (apply Forall_insert; [done|]);
    apply no_space_piece; rewrite no_space_app;
    by rewrite !words_no_space.
Qed.

(** Every token of the word mode is a [word_shape]. *)
Lemma tokenize_word_shape (s : jsstring) (r : list jsstring) :
  tokenize s true = Some r -> Forall (fun t => word_shape t = true) r.
Proof.
  unfold tokenize.
  destruct (split word_sep s) as [tokens|] eqn:Hsplit; [|done]. simpl.
  destruct (while_ _ _ _ _) as [st|] eqn:Hloop; [|done]. simpl.
  intros [= <-].
  apply split_word_pieces in Hsplit.
  pose proof (join_loop_pieces _ _ _ Hsplit Hloop) as Hst.
  apply Forall_forall. intros t Ht.
  apply list_elem_of_In, filter_In in Ht as [Ht Hne].
  apply list_elem_of_In in Ht.
  eapply Forall_forall in Hst; [|exact Ht].
  unfold word_shape, piece in *. by rewrite Hne, Hst.
Qed.

(** ** [createDetails] *)

Lemma with_type_same {T : Type} (r : DiffResult T) : with_type r (type r) = r.
Proof. by destruct r. Qed.

Lemma word_shape_has_space (s : jsstring) :
  word_shape s = true -> has_space s = pure_space s.
Proof.
  unfold word_shape, has_space, pure_space, no_space.
  destruct s as [|c s]; [done|]. simpl.
  intros [Hall | Hnone]%orb_true_iff.
  - rewrite Hall. apply andb_true_iff in Hall as [-> _]. done.
  - apply andb_true_iff in Hnone as [Hc Hs]. apply negb_true_iff in Hc.
    rewrite Hc. simpl.
    induction s as [|c' s IH]; [done|]. simpl in *.
    apply andb_true_iff in Hs as [Hc' Hs]. apply negb_true_iff in Hc'.
    rewrite Hc'. simpl. by apply IH.
Qed.

Lemma createDetails_lookup (line : DiffResult jsstring)
    (tokens : list (DiffResult jsstring)) (i : nat) (r : DiffResult jsstring) :
  createDetails line tokens !! i = Some r ->
  exists x, filter (relevant line) tokens !! i = Some x
    /\ (r = x \/ exists before,
                   filter (relevant line) tokens !! pred i = Some before
                   /\ r = with_type x (type before)).
Proof.
  unfold createDetails. fold (relevant line).
  set (t := filter (relevant line) tokens).
  rewrite list_lookup_imap.
  destruct (t !! i) as [x|] eqn:Hx; [|done]. simpl. intros [= <-].
  exists x. split; [done|].
  destruct (at_ t (Z.of_nat i - 1)) as [before|] eqn:Hb; [|by left].
  apply at_Some_inv in Hb as [Hi Hb].
  replace (Z.to_nat (Z.of_nat i - 1)) with (pred i) in Hb by lia.
  destruct (_ && _); [right; eauto | by left].
Qed.

Lemma relevant_filter_lookup (line : DiffResult jsstring)
    (tokens : list (DiffResult jsstring)) (i : nat) (x : DiffResult jsstring) :
  filter (relevant line) tokens !! i = Some x ->
  relevant line x /\ x ∈ tokens.
Proof.
  intros Hx. apply list_elem_of_lookup_2 in Hx.
  by apply list_elem_of_filter in Hx.
Qed.

(** C10.  The details built for a line hold only entries of the line's own
    kind or [common]; so those of an [added] line hold no [removed] entry
    and those of a [removed] line no [added] entry.  These are the details
    that [diffstr] attaches: the entry it updates carries the result of
    [createDetails] for that very entry. *)
Theorem createDetails_own_kind_or_common
    (line : DiffResult jsstring) (tokens : list (DiffResult jsstring)) :
  Forall (relevant line) (createDetails line tokens)
  /\ (type line = added ->
      Forall (fun r => type r <> removed) (createDetails line tokens))
  /\ (type line = removed ->
      Forall (fun r => type r <> added) (createDetails line tokens))
  /\ (forall (store store' : list (DiffResult jsstring)) (i : nat),
        store !! i = Some line ->
        set_details store i tokens = Some store' ->
        exists line',
          store' !! i = Some line' /\ type line' = type line
          /\ details line' = Some (createDetails line tokens)).
Proof.
  assert (Forall (relevant line) (createDetails line tokens)) as Hrel.
  { apply Forall_lookup. intros i r Hr.
    apply createDetails_lookup in Hr as (x & Hx & Hcase).
    apply relevant_filter_lookup in Hx as [Hx _].
    destruct Hcase as [-> | (before & Hb & ->)]; [done|].
    apply relevant_filter_lookup in Hb as [Hb _]. exact Hb. }
  split; [done|].
  split; [|split].
  - intros Hline. eapply Forall_impl; [exact Hrel|].
    intros r [Hr | Hr]; rewrite Hr, ?Hline; done.
  - intros Hline. eapply Forall_impl; [exact Hrel|].
    intros r [Hr | Hr]; rewrite Hr, ?Hline; done.
  - intros store store' i Hi. unfold set_details. rewrite Hi. simpl.
    intros [= <-]. eexists.
    split; [apply list_lookup_insert_eq; by apply lookup_lt_Some in Hi|].
    by split.
Qed.

Lemma createDetails_own_kind_or_common_witness :
  Forall (fun r => type r <> removed)
    (createDetails (entry added [98])
       [entry removed [97]; entry common [32]; entry added [98]]).
Proof.
  exact (proj1 (proj2 (createDetails_own_kind_or_common (entry added [98])
           [entry removed [97]; entry common [32]; entry added [98]]))
           eq_refl).
Defined.

(** C8.  On word tokens, [createDetails] filters the word diff to the
    entries of the line and then does what the detail-merge step asks for:
    a [common] token of pure white space whose two neighbours in the
    filtered script are entries of one kind other than [common] takes that
    kind, and no other token changes. *)
Theorem createDetails_merges_isolated_space
    (line : DiffResult jsstring) (tokens : list (DiffResult jsstring)) :
  Forall (fun r => is_word_token (value r)) tokens ->
  createDetails line tokens = merge_spaces (filter (relevant line) tokens).
Proof.
  intros Hwords. unfold createDetails, merge_spaces. fold (relevant line).
  set (t := filter (relevant line) tokens).
  apply imap_ext. intros i x Hx.
  assert (has_space (value x) = pure_space (value x)) as Hsp.
  { apply word_shape_has_space.
    apply relevant_filter_lookup in Hx as [_ Hin].
    eapply Forall_forall in Hwords as (text & ts & Hts & Hv); [|exact Hin].
    apply tokenize_word_shape in Hts.
    by eapply Forall_forall in Hts. }
  destruct i as [|j].
  { by rewrite at_neg by lia. }
  replace (Z.of_nat (S j) - 1) with (Z.of_nat j) by lia.
  replace (Z.of_nat (S j) + 1) with (Z.of_nat (S (S j))) by lia.
  rewrite !at_of_nat.
  destruct (t !! j) as [before|]; [|done].
  destruct (t !! S (S j)) as [after|]; simpl.
  - rewrite Hsp.
    destruct (decide (type x = common)) as [Hc|Hc];
      [|by rewrite (bool_decide_eq_false_2 _ Hc)].
    rewrite (bool_decide_eq_true_2 _ Hc). simpl.
    destruct (pure_space (value x)); [|by rewrite !andb_false_r].
    rewrite !andb_true_r.
    destruct (decide (type before = type after)) as [He|He].
    + rewrite (bool_decide_eq_true_2 (Some _ = Some _)) by congruence.
      rewrite (bool_decide_eq_true_2 _ He). simpl.
      destruct (decide (type before = common)) as [Hb|Hb].
      * rewrite (bool_decide_eq_true_2 _ Hb). simpl.
        rewrite Hb, <- Hc. apply with_type_same.
      * by rewrite (bool_decide_eq_false_2 _ Hb).
    + rewrite (bool_decide_eq_false_2 (Some _ = Some _)) by congruence.
      by rewrite (bool_decide_eq_false_2 _ He).
  - by rewrite ?andb_false_r.
Qed.

Lemma createDetails_merges_isolated_space_witness :
  createDetails (entry removed [102; 111; 111; 32; 98; 97; 114])
    [entry removed [102; 111; 111]; entry common [32];
     entry removed [98; 97; 114]]
  = [entry removed [102; 111; 111]; entry removed [32];
     entry removed [98; 97; 114]].
Proof.
  assert (tokenize [102; 111; 111; 32; 98; 97; 114] true
          = Some [[102; 111; 111]; [32]; [98; 97; 114]]) as Htok
    by (vm_compute; reflexivity).
  rewrite (createDetails_merges_isolated_space
             (entry removed [102; 111; 111; 32; 98; 97; 114])
             [entry removed [102; 111; 111]; entry common [32];
              entry removed [98; 97; 114]]).
  - vm_compute. reflexivity.
  - repeat constructor; eexists _, _; (split; [exact Htok|]);
      apply list_elem_of_In; simpl; tauto.
Defined.

(** ** The tokens of the line mode *)

Lemma split_line_pieces (s : jsstring) :
  split line_sep s = Some (pieces_from [] s).
Proof.
  destruct (split_total line_sep s) as [r Hr]. rewrite Hr. f_equal.
  unfold split in Hr. destruct (is_nil s) eqn:Hs.
  { destruct s; [|done]. simpl in Hr. by injection Hr as <-. }
  destruct (while_ _ _ _ _) as [st|] eqn:Hloop; [|done].
  simpl in Hr. injection Hr as <-.
  apply (while_inv split_cond (split_body line_sep)
           (fun st => sout st ++ pieces_from (spq st) (srest st)
                      = pieces_from [] s)) in Hloop as [Hinv Hend].
  - unfold split_cond in Hend. apply negb_false_iff in Hend.
    destruct (srest st); [|done]. by rewrite <- Hinv.
  - clear. intros [out pq prev rest] st' Hinv _. simpl in *.
    unfold split_body. simpl.
    destruct rest as [|c rest']; [done|]. rewrite <- Hinv. clear Hinv.
    unfold line_sep. simpl.
    destruct (Z.eqb_spec c Ch.LF) as [->|Hlf].
    { simpl. intros [= <-]. simpl. by rewrite <- app_assoc. }
    destruct (Z.eqb_spec c Ch.CR) as [->|Hcr];
      [|by intros [= <-]].
    destruct rest' as [|c2 rest'']; [by intros [= <-]|].
    destruct (Z.eqb_spec c2 Ch.LF) as [->|Hlf2]; [|by intros [= <-]].
    simpl. intros [= <-]. simpl. by rewrite <- app_assoc.
  - done.
Qed.

Lemma pieces_from_nonempty (pq rest : jsstring) : pieces_from pq rest <> [].
Proof.
  revert pq. induction rest as [|c rest' IH]; intros pq; simpl; [done|].
  destruct (c =? Ch.LF); [done|].
  destruct (c =? Ch.CR); [|done].
  destruct rest' as [|c2 rest'']; [done|].
  destruct (c2 =? Ch.LF); [done|apply IH].
Qed.

Lemma pop_if_empty_cons (x : jsstring) (l : list jsstring) :
  l <> [] -> pop_if_empty (x :: l) = x :: pop_if_empty l.
Proof.
  destruct l as [|y l]; [done|]. intros _. unfold pop_if_empty.
  replace (len (x :: y :: l) - 1) with (Z.of_nat (S (length l)))
    by (unfold len; simpl; lia).
  replace (len (y :: l) - 1) with (Z.of_nat (length l))
    by (unfold len; simpl; lia).
  rewrite !at_of_nat. simpl.
  by destruct (falsy ((y :: l) !! length l)).
Qed.

Lemma merge_two (x y : jsstring) (l : list jsstring) (i : Z)
    (acc : list jsstring) :
  i mod 2 = 0 ->
  fold_left merge_step (x :: y :: l) (i, acc)
  = fold_left merge_step l (i + 2, acc ++ [x ++ y]).
Proof.
  intros Hi. simpl. unfold merge_step at 2 3. simpl.
  replace (i mod 2 =? 0) with true by (symmetry; apply Z.eqb_eq; lia).
  replace ((i + 1) mod 2 =? 0) with false
    by (symmetry; apply Z.eqb_neq; Z.div_mod_to_equations; lia).
  simpl. unfold append_to_last. rewrite last_snoc, removelast_last.
  f_equal. f_equal. lia.
Qed.

Lemma merge_pieces (n : nat) :
  forall (s pq : jsstring) (i : Z) (acc : list jsstring),
    (length s <= n)%nat -> i mod 2 = 0 ->
    (fold_left merge_step (pop_if_empty (pieces_from pq s)) (i, acc)).2
    = acc ++ lines_of pq s.
Proof.
  induction n as [|n IH]; intros s pq i acc Hn Hi.
  { destruct s; [|simpl in Hn; lia]. simpl. unfold pop_if_empty.
    replace (len [pq] - 1) with (Z.of_nat 0) by done.
    rewrite at_of_nat. simpl.
    destruct pq; simpl; [by rewrite app_nil_r|].
    unfold merge_step. simpl.
    by replace (i mod 2 =? 0) with true by (symmetry; apply Z.eqb_eq; lia). }
  destruct s as [|c s'].
  { apply (IH [] pq i acc); [simpl; lia|done]. }
  simpl in Hn. simpl.
  assert (forall sep rest, (length rest <= n)%nat ->
            (fold_left merge_step
               (pop_if_empty (pq :: sep :: pieces_from [] rest)) (i, acc)).2
            = acc ++ (pq ++ sep) :: lines_of [] rest) as Hemit.
  { intros sep rest Hrest.
    rewrite !pop_if_empty_cons by (done || apply pieces_from_nonempty).
    rewrite merge_two by done.
    rewrite IH; [|done|Z.div_mod_to_equations; lia].
    by rewrite <- app_assoc. }
  destruct (Z.eqb_spec c Ch.LF) as [->|Hlf].
  { apply Hemit. lia. }
  destruct (Z.eqb_spec c Ch.CR) as [->|Hcr]; [|apply IH; [lia|done]].
  destruct s' as [|c2 s'']; [apply IH; [simpl; lia|done]|].
  destruct (Z.eqb_spec c2 Ch.LF) as [->|Hlf2].
  - simpl. rewrite Hemit by (simpl in Hn; lia).
    by rewrite <- app_assoc.
  - apply IH; [simpl in *; lia|done].
Qed.

(** The line mode of [tokenize] cuts the text after each LF. *)
Lemma tokenize_lines (s : jsstring) : tokenize s false = Some (lines_of [] s).
Proof.
  unfold tokenize. rewrite split_line_pieces. simpl. f_equal.
  by rewrite (merge_pieces (length s)).
Qed.

Lemma lines_of_app_LF (u w cur : jsstring) :
  lines_of cur (u ++ Ch.LF :: w) = lines_of cur (u ++ [Ch.LF]) ++ lines_of [] w.
Proof.
  revert cur. induction u as [|c u IH]; intros cur; simpl.
  - done.
  - destruct (c =? Ch.LF); [|apply IH]. simpl. f_equal. apply IH.
Qed.

Lemma lines_of_no_LF (y cur : jsstring) :
  Ch.LF ∉ y -> lines_of cur (y ++ [Ch.LF]) = [cur ++ y ++ [Ch.LF]].
Proof.
  revert cur. induction y as [|c y IH]; intros cur Hy; simpl.
  - done.
  - apply not_elem_of_cons in Hy as [Hc Hy].
    destruct (Z.eqb_spec c Ch.LF) as [->|_]; [done|].
    rewrite IH by done. by rewrite <- app_assoc.
Qed.

(** *** [unescape] *)

Lemma replaceAll_app (c : Z) (rep u w : jsstring) :
  replaceAll c rep (u ++ w) = replaceAll c rep u ++ replaceAll c rep w.
Proof. apply flat_map_app. Qed.

Lemma escape_controls_app (u w : jsstring) :
  escape_controls (u ++ w) = escape_controls u ++ escape_controls w.
Proof. unfold escape_controls. by rewrite !replaceAll_app. Qed.

Lemma escape_controls_cons (c : Z) (s : jsstring) :
  c <> Ch.BS -> c <> Ch.FF -> c <> Ch.TAB -> c <> Ch.VT ->
  escape_controls (c :: s) = c :: escape_controls s.
Proof.
  intros Hbs Hff Htab Hvt. unfold escape_controls, replaceAll. simpl.
  destruct (Z.eqb_spec c Ch.BS); [done|]. simpl.
  destruct (Z.eqb_spec c Ch.FF); [done|]. simpl.
  destruct (Z.eqb_spec c Ch.TAB); [done|]. simpl.
  by destruct (Z.eqb_spec c Ch.VT).
Qed.

Lemma replaceAll_last (c x : Z) (u : jsstring) (z : Z) :
  x <> z -> last (replaceAll c [Ch.backslash; x] u) = Some z ->
  last u = Some z.
Proof.
  intros Hx. induction u as [|y u _] using rev_ind; [done|].
  rewrite replaceAll_app, last_snoc. unfold replaceAll at 2. simpl.
  destruct (y =? c); simpl; rewrite last_app; simpl; congruence.
Qed.

Lemma escape_controls_last (u : jsstring) :
  last (escape_controls u) = Some Ch.CR -> last u = Some Ch.CR.
Proof.
  unfold escape_controls. intros Hl.
  repeat (apply replaceAll_last in Hl; [|done]). done.
Qed.

Lemma replaceAll_head (c x : Z) (w : jsstring) :
  head (replaceAll c [Ch.backslash; x] w) = Some Ch.LF ->
  head w = Some Ch.LF.
Proof.
  destruct w as [|y w]; [done|]. unfold replaceAll. simpl.
  by destruct (y =? c).
Qed.

Lemma escape_controls_head (w : jsstring) :
  head (escape_controls w) = Some Ch.LF -> head w = Some Ch.LF.
Proof.
  unfold escape_controls. intros Hh.
  by repeat apply replaceAll_head in Hh.
Qed.

Lemma replaceAll_no_LF (c x : Z) (u : jsstring) :
  x <> Ch.LF -> Ch.LF ∉ u -> Ch.LF ∉ replaceAll c [Ch.backslash; x] u.
Proof.
  intros Hx Hu Hin. apply list_elem_of_In, in_flat_map in Hin
    as (y & Hy & Hin).
  apply list_elem_of_In in Hy.
  destruct (y =? c); simpl in Hin.
  - destruct Hin as [Hin | [Hin | []]]; [done | by apply Hx].
  - destruct Hin as [-> | []]. done.
Qed.

Lemma escape_controls_no_LF (u : jsstring) :
  Ch.LF ∉ u -> Ch.LF ∉ escape_controls u.
Proof.
  intros Hu. unfold escape_controls.
  by repeat (apply replaceAll_no_LF; [done|]).
Qed.

Lemma replace_breaks_CR (w : jsstring) :
  head w <> Some Ch.LF ->
  replace_breaks (Ch.CR :: w)
  = [Ch.backslash; Ch.r] ++ replace_breaks w.
Proof.
  intros Hw. destruct w as [|c2 w]; [done|].
  cbn [replace_breaks]. rewrite Z.eqb_refl.
  destruct (Z.eqb_spec c2 Ch.LF) as [->|_]; done.
Qed.

Lemma replace_breaks_CR_LF (w : jsstring) :
  replace_breaks (Ch.CR :: Ch.LF :: w)
  = [Ch.backslash; Ch.r; Ch.backslash; Ch.n; Ch.CR; Ch.LF]
      ++ replace_breaks w.
Proof. reflexivity. Qed.

Lemma replace_breaks_LF (w : jsstring) :
  replace_breaks (Ch.LF :: w)
  = [Ch.backslash; Ch.n; Ch.LF] ++ replace_breaks w.
Proof. reflexivity. Qed.

Lemma replace_breaks_plain (c : Z) (w : jsstring) :
  c <> Ch.CR -> c <> Ch.LF ->
  replace_breaks (c :: w) = c :: replace_breaks w.
Proof.
  intros Hcr Hlf. cbn [replace_breaks].
  destruct (Z.eqb_spec c Ch.CR); [done|].
  by destruct (Z.eqb_spec c Ch.LF).
Qed.

(** The shapes of a text that [replace_breaks] tells apart. *)
Lemma break_cases (u : jsstring) :
  u = []
  \/ (exists u', u = Ch.LF :: u')
  \/ u = [Ch.CR]
  \/ (exists u'', u = Ch.CR :: Ch.LF :: u'')
  \/ (exists c2 u'', u = Ch.CR :: c2 :: u'' /\ c2 <> Ch.LF)
  \/ (exists c u', u = c :: u' /\ c <> Ch.CR /\ c <> Ch.LF).
Proof.
  destruct u as [|c u']; [by left|]. right.
  destruct (decide (c = Ch.LF)) as [->|Hlf]; [left; eauto|]. right.
  destruct (decide (c = Ch.CR)) as [->|Hcr]; [|do 3 right; eauto].
  destruct u' as [|c2 u'']; [by left|]. right.
  destruct (decide (c2 = Ch.LF)) as [->|Hlf2]; [left; eauto|].
  right. left. eauto.
Qed.

(** [replace_breaks] works piecewise, unless the cut falls inside a CR LF
    pair. *)
Lemma replace_breaks_app (n : nat) :
  forall u w : jsstring,
    (length u <= n)%nat ->
    (last u = Some Ch.CR -> head w <> Some Ch.LF) ->
    replace_breaks (u ++ w) = replace_breaks u ++ replace_breaks w.
Proof.
  induction n as [|n IH]; intros u w Hn Hcut.
  { destruct u; [done|simpl in Hn; lia]. }
  destruct (break_cases u) as
    [-> | [(u' & ->) | [-> | [(u'' & ->) | [(c2 & u'' & -> & Hc2)
                                           | (c & u' & -> & Hcr & Hlf)]]]]];
    simpl in Hn.
  - done.
  - change ((Ch.LF :: u') ++ w) with (Ch.LF :: (u' ++ w)).
    rewrite !replace_breaks_LF, (IH u' w); [done|lia|].
    intros Hl. apply Hcut. by rewrite last_cons, Hl.
  - change ([Ch.CR] ++ w) with (Ch.CR :: w).
    rewrite replace_breaks_CR by (by apply Hcut). done.
  - change ((Ch.CR :: Ch.LF :: u'') ++ w)
      with (Ch.CR :: Ch.LF :: (u'' ++ w)).
    rewrite !replace_breaks_CR_LF, (IH u'' w); [done|lia|].
    intros Hl. apply Hcut. by rewrite !last_cons, Hl.
  - change ((Ch.CR :: c2 :: u'') ++ w)
      with (Ch.CR :: ((c2 :: u'') ++ w)).
    rewrite (replace_breaks_CR ((c2 :: u'') ++ w))
      by (simpl; congruence).
    rewrite (replace_breaks_CR (c2 :: u'')) by (simpl; congruence).
    rewrite (IH (c2 :: u'') w); [done|simpl; lia|].
    intros Hl. apply Hcut. by rewrite last_cons_cons.
  - change ((c :: u') ++ w) with (c :: (u' ++ w)).
    rewrite !replace_breaks_plain by done.
    rewrite (IH u' w); [done|lia|].
    intros Hl. apply Hcut. by rewrite last_cons, Hl.
Qed.

Lemma replace_breaks_snoc_LF (n : nat) :
  forall u : jsstring,
    (length u <= n)%nat ->
    exists x, replace_breaks (u ++ [Ch.LF]) = x ++ [Ch.LF].
Proof.
  induction n as [|n IH]; intros u Hn.
  { destruct u; [|simpl in Hn; lia]. by exists [Ch.backslash; Ch.n]. }
  destruct (break_cases u) as
    [-> | [(u' & ->) | [-> | [(u'' & ->) | [(c2 & u'' & -> & Hc2)
                                           | (c & u' & -> & Hcr & Hlf)]]]]];
    simpl in Hn.
  - by exists [Ch.backslash; Ch.n].
  - destruct (IH u') as [x Hx]; [lia|].
    change ((Ch.LF :: u') ++ [Ch.LF]) with (Ch.LF :: (u' ++ [Ch.LF])).
    rewrite replace_breaks_LF, Hx.
    exists ([Ch.backslash; Ch.n; Ch.LF] ++ x). by rewrite app_assoc.
  - by exists [Ch.backslash; Ch.r; Ch.backslash; Ch.n; Ch.CR].
  - destruct (IH u'') as [x Hx]; [lia|].
    change ((Ch.CR :: Ch.LF :: u'') ++ [Ch.LF])
      with (Ch.CR :: Ch.LF :: (u'' ++ [Ch.LF])).
    rewrite replace_breaks_CR_LF, Hx.
    eexists. by rewrite app_assoc.
  - destruct (IH (c2 :: u'')) as [x Hx]; [simpl; lia|].
    change ((Ch.CR :: c2 :: u'') ++ [Ch.LF])
      with (Ch.CR :: ((c2 :: u'') ++ [Ch.LF])).
    rewrite replace_breaks_CR by (simpl; congruence).
    rewrite Hx. eexists. by rewrite app_assoc.
  - destruct (IH u') as [x Hx]; [lia|].
    change ((c :: u') ++ [Ch.LF]) with (c :: (u' ++ [Ch.LF])).
    rewrite replace_breaks_plain by done. rewrite Hx.
    by exists (c :: x).
Qed.

Lemma LF_not_in_marker : Ch.LF ∉ [Ch.backslash; Ch.r].
Proof.
  intros Hin. apply list_elem_of_In in Hin.
  by destruct Hin as [?|[?|[]]].
Qed.

Lemma replace_breaks_no_LF (n : nat) :
  forall u : jsstring,
    (length u <= n)%nat -> Ch.LF ∉ u -> Ch.LF ∉ replace_breaks u.
Proof.
  induction n as [|n IH]; intros u Hn Hu.
  { destruct u; [|simpl in Hn; lia]. apply not_elem_of_nil. }
  destruct (break_cases u) as
    [-> | [(u' & ->) | [-> | [(u'' & ->) | [(c2 & u'' & -> & Hc2)
                                           | (c & u' & -> & Hcr & Hlf)]]]]];
    simpl in Hn.
  - apply not_elem_of_nil.
  - exfalso. apply Hu. left.
  - apply LF_not_in_marker.
  - exfalso. apply Hu. right. left.
  - apply not_elem_of_cons in Hu as [_ Hu].
    rewrite replace_breaks_CR by (simpl; congruence).
    apply not_elem_of_app. split; [apply LF_not_in_marker|].
    apply IH; [simpl; lia|done].
  - apply not_elem_of_cons in Hu as [_ Hu].
    rewrite replace_breaks_plain by done.
    apply not_elem_of_cons. split; [congruence|].
    apply IH; [lia|done].
Qed.

Lemma unescape_no_LF (u : jsstring) : Ch.LF ∉ u -> Ch.LF ∉ unescape u.
Proof.
  intros Hu. apply (replace_breaks_no_LF (length (escape_controls u)));
    [done|]. by apply escape_controls_no_LF.
Qed.

Lemma unescape_app (u w : jsstring) :
  (last u = Some Ch.CR -> head w <> Some Ch.LF) ->
  unescape (u ++ w) = unescape u ++ unescape w.
Proof.
  intros Hcut.
  change unescape with (fun s => replace_breaks (escape_controls s)).
  cbv beta. rewrite escape_controls_app.
  apply (replace_breaks_app (length (escape_controls u))); [done|].
  intros Hl Hh. apply escape_controls_last in Hl.
  apply escape_controls_head in Hh. by apply Hcut.
Qed.

Lemma unescape_LF (w : jsstring) :
  unescape (Ch.LF :: w) = [Ch.backslash; Ch.n; Ch.LF] ++ unescape w.
Proof.
  change unescape with (fun s => replace_breaks (escape_controls s)).
  cbv beta. by rewrite escape_controls_cons.
Qed.

Lemma unescape_CR_LF (w : jsstring) :
  unescape (Ch.CR :: Ch.LF :: w)
  = [Ch.backslash; Ch.r; Ch.backslash; Ch.n; Ch.CR; Ch.LF] ++ unescape w.
Proof.
  change unescape with (fun s => replace_breaks (escape_controls s)).
  cbv beta. by rewrite !escape_controls_cons.
Qed.

Lemma unescape_CR (w : jsstring) :
  head w <> Some Ch.LF ->
  unescape (Ch.CR :: w) = [Ch.backslash; Ch.r] ++ unescape w.
Proof.
  intros Hw.
  change unescape with (fun s => replace_breaks (escape_controls s)).
  cbv beta. rewrite escape_controls_cons by done.
  apply replace_breaks_CR. intros Hh. by apply escape_controls_head in Hh.
Qed.

Lemma unescape_snoc_LF (u : jsstring) :
  exists x, unescape (u ++ [Ch.LF]) = x ++ [Ch.LF].
Proof.
  change unescape with (fun s => replace_breaks (escape_controls s)).
  cbv beta. rewrite escape_controls_app.
  change (escape_controls [Ch.LF]) with [Ch.LF].
  by apply (replace_breaks_snoc_LF (length (escape_controls u))).
Qed.

Lemma lines_of_end_LF (y cur : jsstring) :
  Forall (fun t => last t = Some Ch.LF) (lines_of cur (y ++ [Ch.LF])).
Proof.
  revert cur. induction y as [|c y IH]; intros cur; simpl.
  - constructor; [apply last_snoc|done].
  - destruct (Z.eqb_spec c Ch.LF) as [->|_]; [|apply IH].
    constructor; [apply last_snoc|apply IH].
Qed.

Lemma lines_of_open_end (s cur : jsstring) :
  cur ++ s <> [] -> last (cur ++ s) <> Some Ch.LF ->
  exists t, t ∈ lines_of cur s /\ last t <> Some Ch.LF.
Proof.
  revert cur. induction s as [|c s IH]; intros cur Hne Hlast; simpl.
  - rewrite app_nil_r in *. destruct cur; [done|].
    exists (z :: cur). split; [left|done].
  - destruct (Z.eqb_spec c Ch.LF) as [->|_].
    + destruct (IH []) as (t & Ht & Hl).
      * simpl. intros ->. by rewrite last_snoc in Hlast.
      * simpl. intros Hs. apply Hlast.
        rewrite last_app, last_cons, Hs. done.
      * exists t. split; [by right|done].
    + destruct (IH (cur ++ [c])) as (t & Ht & Hl);
        rewrite <- ?app_assoc; [done..|eauto].
Qed.

Lemma boundary_after_LF (pre post : jsstring) :
  boundary_after pre [Ch.LF] post.
Proof.
  unfold boundary_after, line_tokens. rewrite !tokenize_lines.
  eexists _, _. split; [done|]. split; [done|]. f_equal.
  rewrite app_assoc, unescape_app by (by rewrite last_snoc).
  destruct (unescape_snoc_LF pre) as [x ->].
  rewrite <- !app_assoc. apply lines_of_app_LF.
Qed.

Lemma no_boundary_after_CR (pre post : jsstring) :
  ~ boundary_after pre [Ch.CR] post.
Proof.
  unfold boundary_after, line_tokens. rewrite !tokenize_lines.
  intros (t1 & t2 & [= <-] & [= <-] & [= Hall]).
  rewrite (unescape_app pre [Ch.CR]) in Hall by done.
  change (unescape [Ch.CR]) with [Ch.backslash; Ch.r] in Hall.
  destruct (lines_of_open_end (unescape pre ++ [Ch.backslash; Ch.r]) [])
    as (t & Ht & Hl).
  - by destruct (unescape pre).
  - simpl. by rewrite last_app.
  - pose proof (lines_of_end_LF (unescape (pre ++ Ch.CR :: post)) [])
      as Hend.
    rewrite Hall in Hend. apply Forall_app in Hend as [Hend _].
    eapply Forall_forall in Hend; [|exact Ht]. done.
Qed.

(** ** The claim about line terminators *)

(** C7, as stated, fails for a bare CR: in the text [a CR b] the CR is
    replaced by the two characters backslash and [r], no line break is left
    in the escaped text, and the text is a single line token. *)
Lemma bare_CR_gives_no_boundary :
  unescape [97; Ch.CR; 98] = [97; Ch.backslash; Ch.r; 98]
  /\ line_tokens [97; Ch.CR; 98]
     = Some [[97; Ch.backslash; Ch.r; 98; Ch.LF]]
  /\ ~ boundary_after [97] [Ch.CR] [98].
Proof.
  split; [reflexivity|]. split; [by vm_compute|].
  intros (t1 & t2 & H1 & H2 & H3).
  vm_compute in H1. injection H1 as <-.
  vm_compute in H2. injection H2 as <-.
  vm_compute in H3. discriminate H3.
Qed.

(** C7, amended.  LF and CR LF are escaped to a visible marker followed by
    the terminator itself, and each produces a line-token boundary.  A bare
    CR is replaced by its marker alone: it never produces a line-token
    boundary, and a text whose only terminator is a bare CR is one token. *)
Theorem line_breaks_after_escaping (pre post : jsstring) :
  boundary_after pre [Ch.LF] post
  /\ boundary_after pre [Ch.CR; Ch.LF] post
  /\ ~ boundary_after pre [Ch.CR] post
  /\ (last pre <> Some Ch.CR ->
      unescape (pre ++ [Ch.LF] ++ post)
      = unescape pre ++ [Ch.backslash; Ch.n; Ch.LF] ++ unescape post)
  /\ unescape (pre ++ [Ch.CR; Ch.LF] ++ post)
     = unescape pre
         ++ [Ch.backslash; Ch.r; Ch.backslash; Ch.n; Ch.CR; Ch.LF]
         ++ unescape post
  /\ (head post <> Some Ch.LF ->
      unescape (pre ++ [Ch.CR] ++ post)
      = unescape pre ++ [Ch.backslash; Ch.r] ++ unescape post)
  /\ (Ch.LF ∉ pre -> Ch.LF ∉ post ->
      line_tokens (pre ++ [Ch.CR] ++ post)
      = Some [unescape pre ++ [Ch.backslash; Ch.r] ++ unescape post
                ++ [Ch.LF]]).
Proof.
  assert (head post <> Some Ch.LF ->
          unescape (pre ++ [Ch.CR] ++ post)
          = unescape pre ++ [Ch.backslash; Ch.r] ++ unescape post) as Hcr.
  { intros Hpost. rewrite unescape_app by done.
    by rewrite <- unescape_CR. }
  split; [apply boundary_after_LF|].
  split.
  { pose proof (boundary_after_LF (pre ++ [Ch.CR]) post) as Hb.
    unfold boundary_after in *. rewrite <- !app_assoc in Hb. exact Hb. }
  split; [apply no_boundary_after_CR|].
  split.
  { intros Hpre. rewrite unescape_app by done. by rewrite <- unescape_LF. }
  split.
  { rewrite unescape_app by done. by rewrite <- unescape_CR_LF. }
  split; [exact Hcr|].
  intros Hpre Hpost. unfold line_tokens.
  rewrite tokenize_lines, Hcr.
  - rewrite lines_of_no_LF; [by rewrite <- !app_assoc|].
    apply not_elem_of_app. split; [by apply unescape_no_LF|].
    apply not_elem_of_app. split; [apply LF_not_in_marker|].
    by apply unescape_no_LF.
  - intros Hh. apply Hpost. destruct post; [done|].
    injection Hh as ->. left.
Qed.

Lemma line_breaks_after_escaping_witness :
  unescape ([97] ++ [Ch.LF] ++ [98])
  = unescape [97] ++ [Ch.backslash; Ch.n; Ch.LF] ++ unescape [98]
  /\ unescape ([97] ++ [Ch.CR] ++ [98])
     = unescape [97] ++ [Ch.backslash; Ch.r] ++ unescape [98]
  /\ line_tokens ([97] ++ [Ch.CR] ++ [98])
     = Some [unescape [97] ++ [Ch.backslash; Ch.r] ++ unescape [98]
               ++ [Ch.LF]].
Proof.
  destruct (line_breaks_after_escaping [97] [98])
    as (_ & _ & _ & Hlf & _ & Hcr & Hone).
  assert (Ch.LF ∉ [97]) as H97
    by (apply (bool_decide_unpack _); vm_compute; exact I).
  assert (Ch.LF ∉ [98]) as H98
    by (apply (bool_decide_unpack _); vm_compute; exact I).
  split; [apply Hlf; discriminate|].
  split; [apply Hcr; discriminate|].
  by apply Hone.
Defined.


(** * Further properties *)

(** ** The tokenizer keeps the text *)

Lemma concat_lines_of (s cur : jsstring) : concat (lines_of cur s) = cur ++ s.
Proof.
  revert cur. induction s as [|c s IH]; intros cur; simpl.
  - destruct cur; simpl; by rewrite ?app_nil_r.
  - destruct (c =? Ch.LF); simpl; rewrite IH, <- ?app_assoc; done.
Qed.

Lemma split_concat (m : matcher) (s : jsstring) (r : list jsstring) :
  split m s = Some r -> concat r = s.
Proof.
  unfold split. destruct (is_nil s) eqn:Hs.
  { destruct s; [|done]. by destruct (m None []); intros [= <-]. }
  destruct (while_ _ _ _ _) as [st|] eqn:Hloop; [|done].
  simpl. intros [= <-].
  apply (while_inv split_cond (split_body m)
           (fun st => concat (sout st) ++ spq st ++ srest st = s))
    in Hloop as [Hinv Hend]; [| |done].
  - unfold split_cond in Hend. apply negb_false_iff in Hend.
    destruct (srest st); [|done].
    rewrite concat_app. simpl. by rewrite !app_nil_r in *.
  - clear. intros [out pq prev rest] st' Hinv _. simpl in *.
    unfold split_body. simpl.
    destruct rest as [|c rest']; [done|]. rewrite <- Hinv. clear Hinv.
    assert (concat out ++ (pq ++ [c]) ++ rest'
            = concat out ++ pq ++ c :: rest') as Hadv
      by (by rewrite <- !app_assoc).
    destruct (m prev (c :: rest')) as [l|]; [|by intros [= <-]].
    destruct ((l =? 0)%nat && is_nil pq); intros [= <-]; simpl; [done|].
    rewrite concat_app. simpl. rewrite app_nil_r, <- !app_assoc.
    do 2 f_equal. apply (take_drop l (c :: rest')).
Qed.

Lemma concat_filter_nonempty (l : list jsstring) :
  concat (List.filter (fun token => negb (is_nil token)) l) = concat l.
Proof.
  induction l as [|t l IH]; [done|]. simpl.
  destruct t; simpl; by rewrite IH.
Qed.

Lemma falsy_Some (t : jsstring) : falsy (Some t) = true -> t = [].
Proof. by destruct t. Qed.

(** What one merging pass of the joining loop does to the array. *)
Lemma join_merge_shape (tk : list jsstring) (i : nat) (ti t1 ti2 : jsstring) :
  tk !! i = Some ti -> tk !! S i = Some t1 -> tk !! S (S i) = Some ti2 ->
  tk = take i tk ++ ti :: t1 :: ti2 :: drop (S (S (S i))) tk
  /\ take (S i) (<[i := ti ++ ti2]> tk)
       ++ drop (S i + 2) (<[i := ti ++ ti2]> tk)
     = take i tk ++ (ti ++ ti2) :: drop (S (S (S i))) tk.
Proof.
  intros Hi H1 H2.
  assert (tk = take i tk ++ ti :: t1 :: ti2 :: drop (S (S (S i))) tk) as Htk.
  { rewrite <- (take_drop i tk) at 1. f_equal.
    rewrite (drop_S _ _ _ Hi), (drop_S _ _ _ H1), (drop_S _ _ _ H2). done. }
  split; [done|].
  apply lookup_lt_Some in Hi as Hlt.
  rewrite take_insert_lt by lia.
  rewrite drop_insert_lt by lia.
  rewrite (take_S_r _ _ _ Hi).
  replace (S i + 2)%nat with (S (S (S i))) by lia.
  assert (length (take i tk) = i) as Hlen by (rewrite length_take; lia).
  rewrite <- (Nat.add_0_r i) at 1.
  rewrite <- Hlen at 1. rewrite insert_app_r. simpl.
  by rewrite <- app_assoc.
Qed.

Lemma join_loop_concat (fuel : nat) (tokens : list jsstring)
    (st : Z * list jsstring) :
  while_ fuel join_cond join_body (0, tokens) = Some st ->
  concat st.2 = concat tokens.
Proof.
  intros Hloop.
  apply (while_inv join_cond join_body
           (fun st => 0 <= st.1 /\ concat st.2 = concat tokens)) in Hloop
    as [[_ Hst] _]; [done| |done].
  clear. intros [i tk] st' [Hi Htk] Hc. unfold join_body. simpl in *.
  destruct (falsy (at_ tk (i + 1)) && negb (falsy (at_ tk (i + 2)))
            && words_test (at_ tk i) && words_test (at_ tk (i + 2)))
    eqn:Hmerge; [|intros [= <-]; simpl; split; [lia|done]].
  repeat (apply andb_true_iff in Hmerge as [Hmerge ?]).
  destruct (at_ tk i) as [ti|] eqn:Hti; [|done].
  destruct (at_ tk (i + 2)) as [ti2|] eqn:Hti2; [|done].
  simpl. intros [= <-]. simpl. split; [lia|]. rewrite <- Htk.
  apply at_Some_inv in Hti as [_ Hti]. apply at_Some_inv in Hti2 as [Hr Hti2].
  destruct (at_is_Some tk (i + 1)) as [t1 Ht1]; [lia|].
  rewrite Ht1 in Hmerge. apply falsy_Some in Hmerge as ->.
  apply at_Some_inv in Ht1 as [_ Ht1].
  replace (Z.to_nat (i + 1)) with (S (Z.to_nat i)) in * by lia.
  replace (Z.to_nat (i + 2)) with (S (S (Z.to_nat i))) in * by lia.
  destruct (join_merge_shape tk (Z.to_nat i) ti [] ti2 Hti Ht1 Hti2)
    as [Hshape ->].
  rewrite Hshape at 3.
  rewrite !concat_app. simpl. by rewrite <- app_assoc.
Qed.

(** X1.  In both modes the tokens of a text, joined in order, give back
    the text: [tokenize] cuts the text and neither drops nor adds a
    character. *)
Theorem tokenize_keeps_text (s : jsstring) (wordDiff : bool) :
  exists tokens, tokenize s wordDiff = Some tokens /\ concat tokens = s.
Proof.
  destruct (tokenize_total s wordDiff) as [tokens Htok].
  exists tokens. split; [done|].
  destruct wordDiff.
  - unfold tokenize in Htok.
    destruct (split word_sep s) as [pieces|] eqn:Hsplit; [|done].
    simpl in Htok.
    destruct (while_ _ _ _ _) as [st|] eqn:Hloop; [|done].
    simpl in Htok. injection Htok as <-.
    rewrite concat_filter_nonempty.
    transitivity (concat pieces); [exact (join_loop_concat _ _ _ Hloop)|].
    by apply split_concat in Hsplit.
  - rewrite tokenize_lines in Htok. injection Htok as <-.
    apply concat_lines_of.
Qed.

(** ** The shape of the tokens *)

Lemma elem_of_removelast {A : Type} (x : A) (l : list A) :
  x ∈ removelast l -> x ∈ l.
Proof.
  induction l as [|y l IH]; [done|]. simpl.
  destruct l as [|z l]; [by intros ?%elem_of_nil|].
  intros [->|Hx]%elem_of_cons; [left|right; by apply IH].
Qed.

Lemma lines_of_shape (s cur : jsstring) :
  Ch.LF ∉ cur ->
  Forall (fun t => t <> [] /\ Ch.LF ∉ removelast t) (lines_of cur s)
  /\ Forall (fun t => last t = Some Ch.LF) (removelast (lines_of cur s)).
Proof.
  revert cur. induction s as [|c s IH]; intros cur Hcur; simpl.
  - destruct cur as [|z cur]; simpl; [by split|].
    split; [|done]. constructor; [|done]. split; [done|].
    intros Hin. by apply elem_of_removelast in Hin.
  - destruct (Z.eqb_spec c Ch.LF) as [->|Hc].
    + destruct (IH []) as [Hall Hlast]; [apply not_elem_of_nil|].
      split.
      * constructor; [|done]. split; [by destruct cur|].
        by rewrite removelast_last.
      * destruct (lines_of [] s) as [|t ts] eqn:Hts; [done|].
        change (removelast ((cur ++ [Ch.LF]) :: t :: ts))
          with ((cur ++ [Ch.LF]) :: removelast (t :: ts)).
        constructor; [apply last_snoc|done].
    + apply IH. apply not_elem_of_app. split; [done|].
      apply not_elem_of_cons. split; [congruence|apply not_elem_of_nil].
Qed.

(** X2.  A line token is never empty, holds LF at most as its last
    character, and every token but the last one ends with LF. *)
Theorem line_tokens_shape (s : jsstring) :
  exists tokens,
    tokenize s false = Some tokens
    /\ Forall (fun t => t <> [] /\ Ch.LF ∉ removelast t) tokens
    /\ Forall (fun t => last t = Some Ch.LF) (removelast tokens).
Proof.
  exists (lines_of [] s). split; [apply tokenize_lines|].
  apply lines_of_shape, not_elem_of_nil.
Qed.

Lemma is_blank_not_bracket (c : Z) :
  is_blank c = true -> is_bracket c = false.
Proof.
  unfold is_blank, is_bracket, is_space, in_range, Ch.CR, Ch.LF. intros Hb.
  apply not_true_iff_false. intros Hk.
  repeat rewrite ?orb_true_iff, ?andb_true_iff, ?negb_true_iff, ?Z.leb_le,
    ?Z.eqb_eq, ?Z.eqb_neq in Hb.
  repeat rewrite ?orb_true_iff, ?Z.eqb_eq in Hk.
  lia.
Qed.

Lemma word_class_plain (c : Z) : is_word_class c = true -> is_plain c = true.
Proof.
  intros Hw. unfold is_plain.
  pose proof (word_class_no_space c Hw) as Hs.
  unfold is_blank. rewrite Hs. simpl.
  apply negb_true_iff, not_true_iff_false. intros Hk.
  unfold is_word_class, is_bracket, in_range, Ch.CR, Ch.LF in *.
  repeat rewrite ?orb_true_iff, ?andb_true_iff, ?Z.leb_le, ?Z.eqb_eq in Hw.
  repeat rewrite ?orb_true_iff, ?Z.eqb_eq in Hk.
  lia.
Qed.

Lemma words_plain (s : jsstring) : words s = true -> forallb is_plain s = true.
Proof.
  unfold words. intros [_ Hs]%andb_true_iff.
  induction s as [|c s IH]; [done|]. simpl in *.
  apply andb_true_iff in Hs as [Hc Hs].
  by rewrite (word_class_plain c Hc), IH.
Qed.

Lemma plain_kind (t : jsstring) :
  forallb is_plain t = true -> token_kind t = true.
Proof. unfold token_kind. intros ->. apply orb_true_r. Qed.

Lemma blank_run_blank (s : jsstring) :
  forallb is_blank (take (run_length is_blank s) s) = true.
Proof.
  induction s as [|c s IH]; [done|]. simpl.
  destruct (is_blank c) eqn:Hc; [|done]. simpl. by rewrite Hc.
Qed.

Lemma split_word_kinds (s : jsstring) (r : list jsstring) :
  split word_sep s = Some r -> Forall (fun t => token_kind t = true) r.
Proof.
  unfold split. destruct (is_nil s) eqn:Hs.
  { destruct s; [|done]. simpl. intros [= <-]. by repeat constructor. }
  destruct (while_ _ _ _ _) as [st|] eqn:Hloop; [|done].
  simpl. intros [= <-].
  apply (while_inv split_cond (split_body word_sep)
           (fun st => Forall (fun t => token_kind t = true) (sout st)
                      /\ forallb is_plain (spq st) = true)) in Hloop
    as [[Hout Hpq] _]; [| |by split].
  - apply Forall_app. split; [done|].
    constructor; [by apply plain_kind|done].
  - clear. intros [out pq prev rest] st' [Hout Hpq]. simpl in *.
    intros _. unfold split_body. simpl.
    destruct rest as [|c rest']; [done|].
    assert (is_plain c = true ->
            Forall (fun t => token_kind t = true) out
            /\ forallb is_plain (pq ++ [c]) = true) as Hadvance.
    { intros Hc. split; [done|]. rewrite forallb_app, Hpq. simpl.
      by rewrite Hc. }
    assert (forall cap, token_kind cap = true ->
              Forall (fun t => token_kind t = true) (out ++ [pq; cap]))
      as Hemit.
    { intros cap Hcap. apply Forall_app. split; [done|].
      constructor; [by apply plain_kind|]. by constructor. }
    unfold word_sep.
    destruct (is_blank c) eqn:Hblank.
    { pose proof (blank_run_blank (c :: rest')) as Hrun.
      destruct (run_length is_blank (c :: rest')) as [|l] eqn:Hl;
        [simpl in Hl; by rewrite Hblank in Hl|].
      simpl. intros [= <-]. simpl. split; [|done].
      apply Hemit. unfold token_kind. simpl in Hrun. simpl.
      by rewrite Hrun. }
    destruct (is_bracket c) eqn:Hbracket.
    { simpl. intros [= <-]. simpl. split; [|done].
      apply Hemit. unfold token_kind. simpl. rewrite Hbracket.
      by rewrite orb_true_r. }
    assert (is_plain c = true) as Hc
      by (unfold is_plain; by rewrite Hblank, Hbracket).
    destruct (xorb (is_w_opt prev) (is_w c)).
    + simpl. destruct (is_nil pq).
      * intros [= <-]. simpl. by apply Hadvance.
      * intros [= <-]. simpl. split; [|done]. by apply Hemit.
    + intros [= <-]. simpl. by apply Hadvance.
Qed.

Lemma join_loop_kinds (fuel : nat) (tokens : list jsstring)
    (st : Z * list jsstring) :
  Forall (fun t => token_kind t = true) tokens ->
  while_ fuel join_cond join_body (0, tokens) = Some st ->
  Forall (fun t => token_kind t = true) st.2.
Proof.
  intros Htok Hloop.
  apply (while_inv join_cond join_body
           (fun st => Forall (fun t => token_kind t = true) st.2)) in Hloop
    as [Hst _]; [done| |done].
  clear. intros [i tk] st' Htk _. unfold join_body. simpl in *.
  destruct (falsy (at_ tk (i + 1)) && negb (falsy (at_ tk (i + 2)))
            && words_test (at_ tk i) && words_test (at_ tk (i + 2)))
    eqn:Hmerge; [|by intros [= <-]].
  repeat (apply andb_true_iff in Hmerge as [Hmerge ?]).
  destruct (at_ tk i) as [ti|]; [|done].
  destruct (at_ tk (i + 2)) as [ti2|]; [|done].
  simpl in *. intros [= <-]. simpl.
  apply Forall_app. split; [apply Forall_take | apply Forall_drop];
    (apply Forall_insert; [done|]);
    apply plain_kind; rewrite forallb_app;
    by rewrite !words_plain.
Qed.

(** X3.  A word token is never empty and is of one of three kinds: a run
    of blanks, a single bracket, quote, CR or LF, or a run of characters
    that are neither; so a bracket or a line break is always a token of
    its own and white space never shares a token with other text. *)
Theorem word_tokens_kinds (s : jsstring) :
  exists tokens,
    tokenize s true = Some tokens
    /\ Forall (fun t => t <> [] /\ token_kind t = true) tokens.
Proof.
  destruct (tokenize_total s true) as [tokens Htok].
  exists tokens. split; [done|].
  unfold tokenize in Htok.
  destruct (split word_sep s) as [pieces|] eqn:Hsplit; [|done].
  simpl in Htok.
  destruct (while_ _ _ _ _) as [st|] eqn:Hloop; [|done].
  simpl in Htok. injection Htok as <-.
  apply split_word_kinds in Hsplit.
  pose proof (join_loop_kinds _ _ _ Hsplit Hloop) as Hst.
  apply Forall_forall. intros t Ht.
  apply list_elem_of_In, filter_In in Ht as [Ht Hne].
  apply list_elem_of_In in Ht.
  eapply Forall_forall in Hst; [|exact Ht].
  split; [by destruct t|done].
Qed.

(** ** What [unescape] does to a text *)

Lemma count_LF_app (u w : jsstring) :
  count_LF (u ++ w) = (count_LF u + count_LF w)%nat.
Proof. unfold count_LF. by rewrite List.filter_app, length_app. Qed.

Lemma count_LF_cons (c : Z) (s : jsstring) :
  count_LF (c :: s)
  = ((if (c =? Ch.LF)%Z then 1 else 0) + count_LF s)%nat.
Proof. unfold count_LF. simpl. by destruct (c =? Ch.LF). Qed.

Lemma replaceAll_count_LF (c x : Z) (s : jsstring) :
  c <> Ch.LF -> x <> Ch.LF ->
  count_LF (replaceAll c [Ch.backslash; x] s) = count_LF s.
Proof.
  intros Hc Hx. induction s as [|y s IH]; [done|].
  change (replaceAll c [Ch.backslash; x] (y :: s))
    with ((if y =? c then [Ch.backslash; x] else [y])
            ++ replaceAll c [Ch.backslash; x] s).
  rewrite count_LF_app, IH, (count_LF_cons y s). f_equal.
  destruct (Z.eqb_spec y c) as [->|_]; [|by rewrite count_LF_cons].
  rewrite !count_LF_cons.
  destruct (Z.eqb_spec x Ch.LF); [done|].
  by destruct (Z.eqb_spec c Ch.LF).
Qed.

Lemma escape_controls_count_LF (s : jsstring) :
  count_LF (escape_controls s) = count_LF s.
Proof. unfold escape_controls. by rewrite !replaceAll_count_LF. Qed.

Lemma replace_breaks_count_LF (n : nat) :
  forall u : jsstring,
    (length u <= n)%nat -> count_LF (replace_breaks u) = count_LF u.
Proof.
  induction n as [|n IH]; intros u Hn.
  { destruct u; [done|simpl in Hn; lia]. }
  destruct (break_cases u) as
    [-> | [(u' & ->) | [-> | [(u'' & ->) | [(c2 & u'' & -> & Hc2)
                                           | (c & u' & -> & Hcr & Hlf)]]]]];
    simpl in Hn.
  - done.
  - rewrite replace_breaks_LF, count_LF_app, (IH u') by lia. done.
  - done.
  - rewrite replace_breaks_CR_LF, count_LF_app, (IH u'') by lia. done.
  - rewrite replace_breaks_CR by (simpl; congruence).
    rewrite count_LF_app, (IH (c2 :: u'')) by (simpl; lia). done.
  - rewrite replace_breaks_plain by done.
    rewrite !count_LF_cons, (IH u') by lia. done.
Qed.

Lemma unescape_count_LF (s : jsstring) : count_LF (unescape s) = count_LF s.
Proof.
  change (unescape s) with (replace_breaks (escape_controls s)).
  rewrite (replace_breaks_count_LF (length (escape_controls s))) by done.
  apply escape_controls_count_LF.
Qed.

Lemma no_bare_CR_after_marker (w : jsstring) :
  no_bare_CR ([Ch.backslash; Ch.r] ++ w) = no_bare_CR w
  /\ no_bare_CR ([Ch.backslash; Ch.n; Ch.LF] ++ w) = no_bare_CR w
  /\ no_bare_CR
       ([Ch.backslash; Ch.r; Ch.backslash; Ch.n; Ch.CR; Ch.LF] ++ w)
     = no_bare_CR w.
Proof. done. Qed.

Lemma replace_breaks_no_bare_CR (n : nat) :
  forall u : jsstring,
    (length u <= n)%nat -> no_bare_CR (replace_breaks u) = true.
Proof.
  induction n as [|n IH]; intros u Hn.
  { destruct u; [done|simpl in Hn; lia]. }
  destruct (break_cases u) as
    [-> | [(u' & ->) | [-> | [(u'' & ->) | [(c2 & u'' & -> & Hc2)
                                           | (c & u' & -> & Hcr & Hlf)]]]]];
    simpl in Hn.
  - done.
  - rewrite replace_breaks_LF.
    rewrite (proj1 (proj2 (no_bare_CR_after_marker _))). apply IH. lia.
  - done.
  - rewrite replace_breaks_CR_LF.
    rewrite (proj2 (proj2 (no_bare_CR_after_marker _))). apply IH. lia.
  - rewrite replace_breaks_CR by (simpl; congruence).
    rewrite (proj1 (no_bare_CR_after_marker _)). apply IH. simpl. lia.
  - rewrite replace_breaks_plain by done.
    cbn [no_bare_CR]. destruct (Z.eqb_spec c Ch.CR); [done|].
    rewrite andb_true_l. apply IH. lia.
Qed.

(** X4.  [unescape] keeps the line breaks and leaves no bare CR: the
    escaped text has exactly as many LF characters as the text, and each
    of its CR characters is directly followed by LF. *)
Theorem unescape_line_breaks (s : jsstring) :
  count_LF (unescape s) = count_LF s /\ no_bare_CR (unescape s) = true.
Proof.
  split; [apply unescape_count_LF|].
  apply (replace_breaks_no_bare_CR (length (escape_controls s))). done.
Qed.

Lemma lines_of_length (y cur : jsstring) :
  length (lines_of cur (y ++ [Ch.LF])) = S (count_LF y).
Proof.
  revert cur. induction y as [|c y IH]; intros cur; [done|].
  rewrite count_LF_cons. simpl.
  destruct (c =? Ch.LF); simpl; by rewrite IH.
Qed.

(** X5.  The number of lines that [diffstr] compares for a text is the
    number of its LF characters plus one; CR characters do not count. *)
Theorem line_tokens_count (text : jsstring) :
  exists tokens,
    line_tokens text = Some tokens
    /\ length tokens = S (count_LF text).
Proof.
  exists (lines_of [] (unescape text ++ [Ch.LF])).
  split; [apply tokenize_lines|].
  by rewrite lines_of_length, unescape_count_LF.
Qed.

Lemma replaceAll_Forall (P : Z -> Prop) (c : Z) (rep s : jsstring) :
  Forall P rep -> Forall (fun x => x <> c -> P x) s ->
  Forall P (replaceAll c rep s).
Proof.
  intros Hrep Hs. induction Hs as [|y s Hy _ IH]; [constructor|].
  change (replaceAll c rep (y :: s))
    with ((if y =? c then rep else [y]) ++ replaceAll c rep s).
  apply Forall_app. split; [|done].
  destruct (Z.eqb_spec y c); [done|]. constructor; [by apply Hy|done].
Qed.

Lemma escape_controls_no_control (s : jsstring) :
  Forall (fun c => is_control c = false) (escape_controls s).
Proof.
  unfold escape_controls.
  set (s1 := replaceAll Ch.BS [Ch.backslash; Ch.b] s).
  set (s2 := replaceAll Ch.FF [Ch.backslash; Ch.f] s1).
  set (s3 := replaceAll Ch.TAB [Ch.backslash; Ch.t] s2).
  assert (Forall (fun x => x <> Ch.BS) s1) as H1.
  { apply replaceAll_Forall; [by repeat constructor|].
    by apply Forall_forall. }
  assert (Forall (fun x => x <> Ch.BS /\ x <> Ch.FF) s2) as H2.
  { apply replaceAll_Forall; [by repeat constructor|].
    eapply Forall_impl; [exact H1|]. by intros x Hx Hff. }
  assert (Forall (fun x => x <> Ch.BS /\ x <> Ch.FF /\ x <> Ch.TAB) s3) as H3.
  { apply replaceAll_Forall; [by repeat constructor|].
    eapply Forall_impl; [exact H2|]. by intros x [Hbs Hff] Htab. }
  apply replaceAll_Forall; [by repeat constructor|].
  eapply Forall_impl; [exact H3|]. intros x (Hbs & Hff & Htab) Hvt.
  unfold is_control.
  destruct (Z.eqb_spec x Ch.BS); [done|].
  destruct (Z.eqb_spec x Ch.FF); [done|].
  destruct (Z.eqb_spec x Ch.TAB); [done|].
  by destruct (Z.eqb_spec x Ch.VT).
Qed.

Lemma replace_breaks_Forall (P : Z -> Prop) (n : nat) :
  P Ch.backslash -> P Ch.r -> P Ch.n -> P Ch.CR -> P Ch.LF ->
  forall u : jsstring,
    (length u <= n)%nat -> Forall P u -> Forall P (replace_breaks u).
Proof.
  intros Hb Hr Hn' Hcr' Hlf'.
  induction n as [|n IH]; intros u Hn Hu.
  { destruct u; [constructor|simpl in Hn; lia]. }
  destruct (break_cases u) as
    [-> | [(u' & ->) | [-> | [(u'' & ->) | [(c2 & u'' & -> & Hc2)
                                           | (c & u' & -> & Hcr & Hlf)]]]]];
    simpl in Hn.
  - constructor.
  - rewrite replace_breaks_LF. apply Forall_app.
    split; [by repeat constructor|].
    apply IH; [lia|]. by inversion Hu.
  - by repeat constructor.
  - rewrite replace_breaks_CR_LF. apply Forall_app.
    split; [by repeat constructor|].
    apply IH; [lia|]. inversion Hu as [|? ? _ Hu']. by inversion Hu'.
  - rewrite replace_breaks_CR by (simpl; congruence). apply Forall_app.
    split; [by repeat constructor|].
    apply IH; [simpl; lia|]. by inversion Hu.
  - rewrite replace_breaks_plain by done.
    inversion Hu as [|? ? Hc Hu']. subst.
    constructor; [done|]. apply IH; [lia|done].
Qed.

Lemma unescape_control_free (s : jsstring) :
  Forall (fun c => is_control c = false) (unescape s).
Proof.
  change (unescape s) with (replace_breaks (escape_controls s)).
  apply (replace_breaks_Forall _ (length (escape_controls s)));
    [done..|].
  apply escape_controls_no_control.
Qed.

(** X6.  The escaped text holds none of the four control characters
    (backspace, form feed, tab, vertical tab) that [unescape] replaces. *)
Theorem unescape_no_control (s : jsstring) :
  Forall (fun c => is_control c = false) (unescape s).
Proof. apply unescape_control_free. Qed.

Lemma escape_controls_ordinary (s : jsstring) :
  Forall (fun c => is_control c = false) s -> escape_controls s = s.
Proof.
  induction 1 as [|c s Hc _ IH]; [done|].
  unfold is_control in Hc.
  repeat (apply orb_false_iff in Hc as [Hc ?%Z.eqb_neq]).
  apply Z.eqb_neq in Hc.
  rewrite escape_controls_cons by done. by rewrite IH.
Qed.

Lemma replace_breaks_length (n : nat) :
  forall u : jsstring,
    (length u <= n)%nat ->
    (length u <= length (replace_breaks u))%nat
    /\ (Ch.CR ∈ u \/ Ch.LF ∈ u ->
        (length u < length (replace_breaks u))%nat).
Proof.
  induction n as [|n IH]; intros u Hn.
  { destruct u; [|simpl in Hn; lia]. split; [done|].
    by intros [?%elem_of_nil|?%elem_of_nil]. }
  destruct (break_cases u) as
    [-> | [(u' & ->) | [-> | [(u'' & ->) | [(c2 & u'' & -> & Hc2)
                                           | (c & u' & -> & Hcr & Hlf)]]]]];
    simpl in Hn.
  - split; [done|]. by intros [?%elem_of_nil|?%elem_of_nil].
  - destruct (IH u') as [Hle _]; [lia|].
    rewrite replace_breaks_LF, length_app. simpl. lia.
  - simpl. lia.
  - destruct (IH u'') as [Hle _]; [lia|].
    rewrite replace_breaks_CR_LF, length_app. simpl. lia.
  - destruct (IH (c2 :: u'')) as [Hle _]; [simpl; lia|].
    rewrite replace_breaks_CR by (simpl; congruence).
    rewrite length_app. simpl in *. lia.
  - destruct (IH u') as [Hle Hlt]; [lia|].
    rewrite replace_breaks_plain by done. simpl. split; [lia|].
    intros [Hin|Hin]; apply elem_of_cons in Hin as [?|Hin]; try done;
      (assert (length u' < length (replace_breaks u'))%nat by auto); lia.
Qed.

Lemma is_ordinary_spec (c : Z) :
  is_ordinary c = true
  <-> is_control c = false /\ c <> Ch.CR /\ c <> Ch.LF.
Proof.
  unfold is_ordinary, is_control.
  rewrite negb_true_iff, !orb_false_iff, !Z.eqb_neq. tauto.
Qed.

(** X7.  [unescape] returns a text unchanged exactly when the text holds
    none of the six characters it escapes (backspace, form feed, tab,
    vertical tab, CR, LF). *)
Theorem unescape_fixes_ordinary_text (s : jsstring) :
  unescape s = s <-> Forall (fun c => is_ordinary c = true) s.
Proof.
  split.
  - intros Hfix.
    assert (Forall (fun c => is_control c = false) s) as Hctl
      by (rewrite <- Hfix; apply unescape_control_free).
    change (unescape s) with (replace_breaks (escape_controls s)) in Hfix.
    rewrite (escape_controls_ordinary s Hctl) in Hfix.
    destruct (replace_breaks_length (length s) s) as [_ Hlt]; [done|].
    apply Forall_forall. intros c Hc. apply is_ordinary_spec.
    split; [by eapply Forall_forall in Hctl|].
    split; intros ->; rewrite Hfix in Hlt;
      (assert (length s < length s)%nat by auto); lia.
  - intros Hs.
    assert (Forall (fun c => is_control c = false) s) as Hctl.
    { eapply Forall_impl; [exact Hs|]. by intros c [? _]%is_ordinary_spec. }
    change (unescape s) with (replace_breaks (escape_controls s)).
    rewrite (escape_controls_ordinary s Hctl).
    clear Hctl. induction Hs as [|c s Hc _ IH]; [done|].
    apply is_ordinary_spec in Hc as (_ & Hcr & Hlf).
    rewrite replace_breaks_plain by done. by rewrite IH.
Qed.

Lemma unescape_fixes_ordinary_text_witness : unescape [97; 98] = [97; 98].
Proof.
  apply (proj2 (unescape_fixes_ordinary_text [97; 98])).
  by repeat constructor.
Defined.

(** X8.  [unescape] is not injective: a control character and the two
    characters of its own marker (a backslash and a letter) give the same
    escaped text in every context, because the backslash itself is not
    escaped. *)
Theorem unescape_confuses_marker (pre post : jsstring) :
  Forall (fun cx : Z * Z =>
            pre ++ [cx.1] ++ post <> pre ++ [Ch.backslash; cx.2] ++ post
            /\ unescape (pre ++ [cx.1] ++ post)
               = unescape (pre ++ [Ch.backslash; cx.2] ++ post))
    control_markers.
Proof.
  unfold control_markers. repeat constructor; simpl.
  all: try (intros Heq; apply (f_equal length) in Heq;
            rewrite !length_app in Heq; simpl in Heq; lia).
  all: change unescape with (fun s => replace_breaks (escape_controls s));
    cbv beta; f_equal; rewrite !escape_controls_app; f_equal;
    change (?c :: ?x :: post) with ([c; x] ++ post);
    change (?c :: post) with ([c] ++ post);
    by rewrite !escape_controls_app.
Qed.

(** ** More on [createDetails] *)

Lemma createDetails_retag (line : DiffResult jsstring)
    (tokens : list (DiffResult jsstring)) :
  createDetails line tokens
  = imap (retag (filter (relevant line) tokens))
      (filter (relevant line) tokens).
Proof. reflexivity. Qed.

(** [retag] in terms of the two neighbours. *)
Lemma retag_neighbours (t : list (DiffResult jsstring)) (i : nat)
    (x : DiffResult jsstring) :
  retag t i x
  = match i with
    | O => x
    | S j =>
        match t !! j, t !! S (S j) with
        | Some before, Some after =>
            if bool_decide (type x = common)
               && bool_decide (type before = type after)
               && has_space (value x)
            then with_type x (type before)
            else x
        | _, _ => x
        end
    end.
Proof.
  unfold retag. destruct i as [|j].
  { by rewrite at_neg by lia. }
  replace (Z.of_nat (S j) - 1) with (Z.of_nat j) by lia.
  replace (Z.of_nat (S j) + 1) with (Z.of_nat (S (S j))) by lia.
  rewrite !at_of_nat.
  destruct (t !! j) as [before|]; [|done].
  destruct (t !! S (S j)) as [after|]; simpl.
  - destruct (decide (type before = type after)) as [He|He].
    + rewrite (bool_decide_eq_true_2 (Some _ = Some _)) by congruence.
      by rewrite (bool_decide_eq_true_2 _ He).
    + rewrite (bool_decide_eq_false_2 (Some _ = Some _)) by congruence.
      by rewrite (bool_decide_eq_false_2 _ He).
  - by rewrite andb_false_r.
Qed.

Lemma retag_value (t : list (DiffResult jsstring)) (i : nat)
    (x : DiffResult jsstring) :
  value (retag t i x) = value x /\ details (retag t i x) = details x.
Proof.
  rewrite retag_neighbours. destruct i as [|j]; [done|].
  destruct (t !! j); [|done]. destruct (t !! S (S j)); [|done].
  by destruct (_ && _).
Qed.

Lemma retag_not_common (t : list (DiffResult jsstring)) (i : nat)
    (x : DiffResult jsstring) :
  type x <> common -> retag t i x = x.
Proof.
  intros Hx. rewrite retag_neighbours. destruct i as [|j]; [done|].
  destruct (t !! j); [|done]. destruct (t !! S (S j)); [|done].
  by rewrite (bool_decide_eq_false_2 _ Hx).
Qed.

(** X9.  [createDetails] never touches the text: the entries it returns
    carry, in order, the values and the details of the entries of the
    word diff that belong to the line, and an entry that is not [common]
    is returned as it is. *)
Theorem createDetails_keeps_values
    (line : DiffResult jsstring) (tokens : list (DiffResult jsstring)) :
  value <$> createDetails line tokens
  = value <$> filter (relevant line) tokens
  /\ details <$> createDetails line tokens
     = details <$> filter (relevant line) tokens
  /\ forall (i : nat) (x : DiffResult jsstring),
       filter (relevant line) tokens !! i = Some x ->
       type x <> common ->
       createDetails line tokens !! i = Some x.
Proof.
  rewrite createDetails_retag.
  set (t := filter (relevant line) tokens).
  split; [|split].
  - apply list_eq. intros i.
    rewrite !list_lookup_fmap, list_lookup_imap.
    destruct (t !! i) as [x|]; [|done]. simpl.
    by rewrite (proj1 (retag_value t i x)).
  - apply list_eq. intros i.
    rewrite !list_lookup_fmap, list_lookup_imap.
    destruct (t !! i) as [x|]; [|done]. simpl.
    by rewrite (proj2 (retag_value t i x)).
  - intros i x Hx Hty. rewrite list_lookup_imap, Hx. simpl.
    by rewrite retag_not_common.
Qed.

Lemma createDetails_keeps_values_witness :
  createDetails (entry removed [97; 32; 98])
    [entry removed [97]; entry common [32]; entry added [98]] !! 0%nat
  = Some (entry removed [97]).
Proof.
  apply (proj2 (proj2 (createDetails_keeps_values
           (entry removed [97; 32; 98])
           [entry removed [97]; entry common [32]; entry added [98]])));
    [reflexivity|discriminate].
Defined.

Lemma createDetails_relevant (line : DiffResult jsstring)
    (tokens : list (DiffResult jsstring)) :
  Forall (relevant line) (createDetails line tokens).
Proof.
  apply Forall_lookup. intros i r Hr.
  apply createDetails_lookup in Hr as (x & Hx & Hcase).
  apply relevant_filter_lookup in Hx as [Hx _].
  destruct Hcase as [-> | (before & Hb & ->)]; [done|].
  apply relevant_filter_lookup in Hb as [Hb _]. exact Hb.
Qed.

Lemma filter_all_relevant (line : DiffResult jsstring)
    (l : list (DiffResult jsstring)) :
  Forall (relevant line) l -> filter (relevant line) l = l.
Proof.
  induction 1 as [|x l Hx _ IH]; [done|].
  rewrite filter_cons_True by done. by rewrite IH.
Qed.

Lemma retag_common_same (t : list (DiffResult jsstring)) (i : nat)
    (x : DiffResult jsstring) :
  type (retag t i x) = common -> retag t i x = x.
Proof.
  rewrite retag_neighbours. destruct i as [|j]; [done|].
  destruct (t !! j) as [before|]; [|done].
  destruct (t !! S (S j)) as [after|]; [|done].
  destruct (_ && _) eqn:Hc; [|done]. simpl. intros Hb.
  apply andb_true_iff in Hc as [[Hx _]%andb_true_iff _].
  apply bool_decide_eq_true in Hx. rewrite Hb, <- Hx.
  apply with_type_same.
Qed.

Lemma retag_type_next (t : list (DiffResult jsstring)) (i : nat)
    (y z : DiffResult jsstring) :
  t !! S i = Some z -> type z = common -> type (retag t i y) = type y.
Proof.
  intros Hz Hty. rewrite retag_neighbours. destruct i as [|j]; [done|].
  destruct (t !! j) as [before|]; [|done]. rewrite Hz.
  destruct (_ && _) eqn:Hc; [|done]. simpl.
  apply andb_true_iff in Hc as [[Hy He]%andb_true_iff _].
  apply bool_decide_eq_true in Hy, He. congruence.
Qed.

Lemma retag_type_prev (t : list (DiffResult jsstring)) (i : nat)
    (y z : DiffResult jsstring) :
  t !! i = Some z -> type z = common -> type (retag t (S i) y) = type y.
Proof.
  intros Hz Hty. rewrite retag_neighbours, Hz.
  destruct (t !! S (S i)) as [after|]; [|done].
  destruct (_ && _) eqn:Hc; [|done]. simpl.
  apply andb_true_iff in Hc as [[Hy _]%andb_true_iff _].
  apply bool_decide_eq_true in Hy. congruence.
Qed.

Lemma retag_fixpoint (t : list (DiffResult jsstring)) (i : nat)
    (x' : DiffResult jsstring) :
  imap (retag t) t !! i = Some x' -> retag (imap (retag t) t) i x' = x'.
Proof.
  set (t' := imap (retag t) t). intros Hx'.
  rewrite retag_neighbours. destruct i as [|j]; [done|].
  destruct (t' !! j) as [b'|] eqn:Hb'; [|done].
  destruct (t' !! S (S j)) as [a'|] eqn:Ha'; [|done].
  destruct (_ && _) eqn:Hc; [|done].
  apply andb_true_iff in Hc as [[Hx He]%andb_true_iff Hsp].
  apply bool_decide_eq_true in Hx, He.
  unfold t' in Hx', Hb', Ha'. rewrite list_lookup_imap in Hx', Hb', Ha'.
  destruct (t !! S j) as [x|] eqn:Htx; [|done].
  destruct (t !! j) as [b|] eqn:Htb; [|done].
  destruct (t !! S (S j)) as [a|] eqn:Hta; [|done].
  simpl in *. injection Hx' as <-. injection Hb' as <-. injection Ha' as <-.
  pose proof (retag_common_same t (S j) x Hx) as Hsame.
  rewrite Hsame in *.
  rewrite (retag_type_next t j b x Htx Hx) in *.
  rewrite (retag_type_prev t (S j) a x Htx Hx) in He.
  assert (type b = common) as Hb; [|by rewrite Hb, <- Hx, with_type_same].
  rewrite retag_neighbours, Htb, Hta in Hsame.
  rewrite (bool_decide_eq_true_2 _ Hx), (bool_decide_eq_true_2 _ He), Hsp
    in Hsame.
  simpl in Hsame. apply (f_equal type) in Hsame. simpl in Hsame. congruence.
Qed.

(** X10.  [createDetails] is idempotent: building the details of a line
    once more from its details changes nothing. *)
Theorem createDetails_idempotent
    (line : DiffResult jsstring) (tokens : list (DiffResult jsstring)) :
  createDetails line (createDetails line tokens) = createDetails line tokens.
Proof.
  rewrite (createDetails_retag line (createDetails line tokens)).
  rewrite (filter_all_relevant line _ (createDetails_relevant line tokens)).
  rewrite createDetails_retag.
  set (t := filter (relevant line) tokens).
  apply list_eq. intros i. rewrite list_lookup_imap.
  destruct (imap (retag t) t !! i) as [x'|] eqn:Hx'; [|done]. simpl.
  by rewrite retag_fixpoint.
Qed.

(** ** The trimming of [diffSequence] *)

Section Trimming.
Context {T : Type} `{EqDecision T}.
Implicit Types a b : list T.

Lemma same_true a b (i j : Z) : same a b i j = true -> at_ a i = at_ b j.
Proof. unfold same. apply bool_decide_eq_true. Qed.

Lemma same_false a b (i j : Z) : same a b i j = false -> at_ a i <> at_ b j.
Proof. unfold same. apply bool_decide_eq_false. Qed.

(** What the scan at the start leaves in [(start, commonPrefix)]. *)
Lemma prefix_loop_spec a b (minLen : Z) (s : Z * list (DiffResult T)) :
  0 <= minLen ->
  prefix_loop a b minLen = Some s ->
  0 <= s.1 <= minLen
  /\ take (Z.to_nat s.1) a = take (Z.to_nat s.1) b
  /\ s.2 = entry common <$> take (Z.to_nat s.1) a
  /\ (s.1 < minLen -> at_ a s.1 <> at_ b s.1).
Proof.
  intros Hmin Hloop. unfold prefix_loop in Hloop.
  apply (while_inv (prefix_cond a b minLen) (prefix_body a)
           (fun s => 0 <= s.1 <= minLen
                     /\ take (Z.to_nat s.1) a = take (Z.to_nat s.1) b
                     /\ s.2 = entry common <$> take (Z.to_nat s.1) a))
    in Hloop as [(Hr & Ht & Hs) Hend].
  - split; [done|]. split; [done|]. split; [done|]. intros Hlt.
    unfold prefix_cond in Hend. apply andb_false_iff in Hend as [Hc|Hc].
    + apply Z.ltb_ge in Hc. lia.
    + by apply same_false.
  - clear. intros [i acc] s' (Hr & Ht & Hs) Hc. simpl in *.
    unfold prefix_cond in Hc. simpl in Hc.
    apply andb_true_iff in Hc as [Hlt Heq]. apply Z.ltb_lt in Hlt.
    apply same_true in Heq. unfold prefix_body. simpl.
    destruct (at_ a i) as [x|] eqn:Hx; [|done]. simpl. intros [= <-]. simpl.
    symmetry in Heq.
    apply at_Some_inv in Hx as [_ Hx]. apply at_Some_inv in Heq as [_ Heq].
    replace (Z.to_nat (i + 1)) with (S (Z.to_nat i)) by lia.
    rewrite (take_S_r _ _ _ Hx), (take_S_r _ _ _ Heq), Ht.
    split; [lia|]. split; [done|].
    by rewrite fmap_app, Hs, Ht.
  - simpl. split; [lia|]. by rewrite !take_0.
Qed.

(** What the scan at the end leaves in [(i, commonSuffix)]; the number of
    entries found is [i - 1]. *)
Lemma suffix_loop_spec a b (endLimit : Z) (s : Z * list (DiffResult T)) :
  0 <= endLimit ->
  suffix_loop a b endLimit = Some s ->
  0 <= s.1 - 1 <= endLimit
  /\ len s.2 = s.1 - 1
  /\ drop (Z.to_nat (len a - (s.1 - 1))) a
     = drop (Z.to_nat (len b - (s.1 - 1))) b
  /\ (s.1 - 1 < endLimit ->
      at_ a (len a - (s.1 - 1) - 1) <> at_ b (len b - (s.1 - 1) - 1)).
Proof.
  intros Hlim Hloop. unfold suffix_loop in Hloop.
  apply (while_inv (suffix_cond a b endLimit) (suffix_body a)
           (fun s => 0 <= s.1 - 1 <= endLimit
                     /\ len s.2 = s.1 - 1
                     /\ drop (Z.to_nat (len a - (s.1 - 1))) a
                        = drop (Z.to_nat (len b - (s.1 - 1))) b))
    in Hloop as [(Hr & Hl & Hd) Hend].
  - split; [done|]. split; [done|]. split; [done|]. intros Hlt.
    unfold suffix_cond in Hend. apply andb_false_iff in Hend as [Hc|Hc].
    + apply Z.ltb_ge in Hc. lia.
    + apply same_false in Hc.
      by replace (len a - (s.1 - 1) - 1) with (len a - s.1) by lia;
         replace (len b - (s.1 - 1) - 1) with (len b - s.1) by lia.
  - clear. intros [i acc] s' (Hr & Hl & Hd) Hc. simpl in *.
    unfold suffix_cond in Hc. simpl in Hc.
    apply andb_true_iff in Hc as [Hlt Heq]. apply Z.ltb_lt in Hlt.
    apply same_true in Heq. unfold suffix_body. simpl.
    destruct (at_ a (len a - i)) as [x|] eqn:Hx; [|done]. simpl.
    intros [= <-]. simpl. symmetry in Heq.
    apply at_Some_inv in Hx as [Hra Hx].
    apply at_Some_inv in Heq as [Hrb Heq].
    split; [lia|]. split.
    { unfold len in *. rewrite length_app. simpl. lia. }
    replace (len a - (i + 1 - 1)) with (len a - i) by lia.
    replace (len b - (i + 1 - 1)) with (len b - i) by lia.
    rewrite (drop_S _ _ _ Hx), (drop_S _ _ _ Heq). f_equal.
    replace (S (Z.to_nat (len a - i))) with (Z.to_nat (len a - (i - 1)))
      by lia.
    replace (S (Z.to_nat (len b - i))) with (Z.to_nat (len b - (i - 1)))
      by lia.
    done.
  - simpl. split; [lia|]. split; [done|].
    replace (len a - (1 - 1)) with (len a) by lia.
    replace (len b - (1 - 1)) with (len b) by lia.
    unfold len. rewrite !Nat2Z.id. by rewrite !drop_all.
Qed.

(** The facts about [affixes] that the statements below share. *)
Lemma affixes_facts a b :
  exists start end_,
    affixes a b = Some (start, end_)
    /\ 0 <= start /\ 0 <= end_
    /\ start + end_ <= Z.min (len a) (len b)
    /\ take (Z.to_nat start) a = take (Z.to_nat start) b
    /\ drop (Z.to_nat (len a - end_)) a = drop (Z.to_nat (len b - end_)) b
    /\ (start < Z.min (len a) (len b) -> at_ a start <> at_ b start)
    /\ (start + end_ < Z.min (len a) (len b) ->
        at_ a (len a - end_ - 1) <> at_ b (len b - end_ - 1)).
Proof.
  unfold affixes.
  set (minLen := if len a >? len b then len b else len a).
  assert (minLen = Z.min (len a) (len b)) as Hmin
    by (subst minLen; destruct (Z.gtb_spec (len a) (len b)); lia).
  pose proof (len_nonneg a). pose proof (len_nonneg b).
  destruct (prefix_loop_total a b minLen) as (p & Hp & _); [lia|].
  rewrite Hp. simpl.
  apply prefix_loop_spec in Hp as (Hpr & Hpt & _ & Hpm); [|lia].
  destruct (suffix_loop_total a b (minLen - p.1)) as (q & Hq & _); [lia|].
  rewrite Hq. simpl.
  apply suffix_loop_spec in Hq as (Hqr & Hql & Hqd & Hqm); [|lia].
  exists p.1, (len q.2). rewrite Hql, <- Hmin.
  split; [done|]. repeat split; try done; try lia.
  intros Hlt. apply Hqm. lia.
Qed.

(** X11.  The two lengths that the trimming of [diffSequence] finds are
    those of a common prefix and a common suffix of the two sequences, and
    the two do not overlap in the shorter sequence. *)
Theorem trimming_finds_common_affixes a b :
  exists start end_,
    affixes a b = Some (start, end_)
    /\ 0 <= start /\ 0 <= end_
    /\ start + end_ <= Z.min (len a) (len b)
    /\ take (Z.to_nat start) a = take (Z.to_nat start) b
    /\ drop (Z.to_nat (len a - end_)) a = drop (Z.to_nat (len b - end_)) b.
Proof.
  destruct (affixes_facts a b)
    as (start & end_ & Ha & H0 & H1 & H2 & H3 & H4 & _).
  by exists start, end_.
Qed.

(** X12.  The trimming is greedy: the common prefix stops at the first
    pair of elements that differ or at the end of the shorter sequence,
    and so does the common suffix in what the prefix leaves of the shorter
    sequence. *)
Theorem trimming_is_maximal a b :
  exists start end_,
    affixes a b = Some (start, end_)
    /\ (start < Z.min (len a) (len b) -> at_ a start <> at_ b start)
    /\ (start + end_ < Z.min (len a) (len b) ->
        at_ a (len a - end_ - 1) <> at_ b (len b - end_ - 1)).
Proof.
  destruct (affixes_facts a b)
    as (start & end_ & Ha & _ & _ & _ & _ & _ & H5 & H6).
  by exists start, end_.
Qed.

(** X13.  For equal sequences the prefix scan takes everything and leaves
    nothing to the suffix scan. *)
Theorem trimming_of_equal_sequences a :
  affixes a a = Some (len a, 0).
Proof.
  destruct (affixes_facts a a)
    as (start & end_ & -> & H0 & H1 & H2 & _ & _ & H5 & _).
  rewrite Z.min_id in *.
  assert (start = len a) as ->.
  { destruct (Z.lt_ge_cases start (len a)) as [Hlt|Hge]; [|lia].
    by destruct (H5 Hlt). }
  do 2 f_equal. lia.
Qed.
End Trimming.

(** ** [createCommon] *)

Section CreateCommonFacts.
Context {T : Type} `{EqDecision T}.
Implicit Types A B : list T.

Lemma createCommon_loop_total A B (reverse : bool) :
  exists s,
    while_ (Z.to_nat (Z.min (len A) (len B)))
      (createCommon_cond A B reverse) (createCommon_body A reverse) (0, [])
    = Some s.
Proof.
  destruct (while_spec (createCommon_cond A B reverse)
              (createCommon_body A reverse)
              (fun s => 0 <= s.1)
              (fun s => Z.to_nat (Z.min (len A) (len B) - s.1)))
    with (fuel := Z.to_nat (Z.min (len A) (len B))) (s := (0, @nil T))
    as (s & Hs & _ & _); [|simpl; lia|simpl; lia|eauto].
  intros [i acc] Hi Hc. unfold createCommon_cond in Hc. simpl in *.
  apply andb_true_iff in Hc as [Hlt _]. apply Z.ltb_lt in Hlt.
  unfold createCommon_body. simpl.
  destruct (at_is_Some A (common_index A reverse i)) as [x ->].
  { unfold common_index. destruct reverse; lia. }
  simpl. eexists. split; [done|]. simpl. lia.
Qed.

(** Forwards, the loop collects the common prefix. *)
Lemma createCommon_forward A B (s : Z * list T) :
  while_ (Z.to_nat (Z.min (len A) (len B)))
    (createCommon_cond A B false) (createCommon_body A false) (0, [])
  = Some s ->
  0 <= s.1 <= Z.min (len A) (len B)
  /\ s.2 = take (Z.to_nat s.1) A
  /\ take (Z.to_nat s.1) A = take (Z.to_nat s.1) B
  /\ (s.1 < Z.min (len A) (len B) -> at_ A s.1 <> at_ B s.1).
Proof.
  intros Hloop. pose proof (len_nonneg A). pose proof (len_nonneg B).
  apply (while_inv (createCommon_cond A B false) (createCommon_body A false)
           (fun s => 0 <= s.1 <= Z.min (len A) (len B)
                     /\ s.2 = take (Z.to_nat s.1) A
                     /\ take (Z.to_nat s.1) A = take (Z.to_nat s.1) B))
    in Hloop as [(Hr & Hs & Ht) Hend].
  - split; [done|]. split; [done|]. split; [done|]. intros Hlt.
    unfold createCommon_cond in Hend.
    apply andb_false_iff in Hend as [Hc|Hc].
    + apply Z.ltb_ge in Hc. lia.
    + by apply same_false in Hc.
  - clear. intros [i acc] s' (Hr & Hs & Ht) Hc. simpl in *.
    unfold createCommon_cond in Hc. simpl in Hc.
    apply andb_true_iff in Hc as [Hlt Heq]. apply Z.ltb_lt in Hlt.
    apply same_true in Heq. unfold createCommon_body. simpl in *.
    destruct (at_ A i) as [x|] eqn:Hx; [|done]. simpl. intros [= <-]. simpl.
    symmetry in Heq.
    apply at_Some_inv in Hx as [_ Hx]. apply at_Some_inv in Heq as [_ Heq].
    replace (Z.to_nat (i + 1)) with (S (Z.to_nat i)) by lia.
    rewrite (take_S_r _ _ _ Hx), (take_S_r _ _ _ Heq), Ht, Hs, Ht.
    split; [lia|done].
  - simpl. split; [lia|]. by rewrite !take_0.
Qed.

(** Backwards, it collects the common suffix, last element first. *)
Lemma createCommon_backward A B (s : Z * list T) :
  while_ (Z.to_nat (Z.min (len A) (len B)))
    (createCommon_cond A B true) (createCommon_body A true) (0, [])
  = Some s ->
  0 <= s.1 <= Z.min (len A) (len B)
  /\ s.2 = reverse (drop (Z.to_nat (len A - s.1)) A)
  /\ drop (Z.to_nat (len A - s.1)) A = drop (Z.to_nat (len B - s.1)) B
  /\ (s.1 < Z.min (len A) (len B) ->
      at_ A (len A - s.1 - 1) <> at_ B (len B - s.1 - 1)).
Proof.
  intros Hloop. pose proof (len_nonneg A). pose proof (len_nonneg B).
  apply (while_inv (createCommon_cond A B true) (createCommon_body A true)
           (fun s => 0 <= s.1 <= Z.min (len A) (len B)
                     /\ s.2 = reverse (drop (Z.to_nat (len A - s.1)) A)
                     /\ drop (Z.to_nat (len A - s.1)) A
                        = drop (Z.to_nat (len B - s.1)) B))
    in Hloop as [(Hr & Hs & Ht) Hend].
  - split; [done|]. split; [done|]. split; [done|]. intros Hlt.
    unfold createCommon_cond in Hend.
    apply andb_false_iff in Hend as [Hc|Hc].
    + apply Z.ltb_ge in Hc. lia.
    + by apply same_false in Hc.
  - clear. intros [i acc] s' (Hr & Hs & Ht) Hc. simpl in *.
    unfold createCommon_cond in Hc. simpl in Hc.
    apply andb_true_iff in Hc as [Hlt Heq]. apply Z.ltb_lt in Hlt.
    apply same_true in Heq. unfold createCommon_body. simpl in *.
    destruct (at_ A (len A - i - 1)) as [x|] eqn:Hx; [|done].
    simpl. intros [= <-]. simpl. symmetry in Heq.
    apply at_Some_inv in Hx as [Hra Hx].
    apply at_Some_inv in Heq as [Hrb Heq].
    replace (len A - (i + 1)) with (len A - i - 1) by lia.
    replace (len B - (i + 1)) with (len B - i - 1) by lia.
    rewrite (drop_S _ _ _ Hx), (drop_S _ _ _ Heq).
    replace (S (Z.to_nat (len A - i - 1))) with (Z.to_nat (len A - i))
      by lia.
    replace (S (Z.to_nat (len B - i - 1))) with (Z.to_nat (len B - i))
      by lia.
    rewrite reverse_cons, <- Hs, Ht. split; [lia|done].
  - simpl. split; [lia|].
    replace (len A - 0) with (len A) by lia.
    replace (len B - 0) with (len B) by lia.
    unfold len. rewrite !Nat2Z.id. by rewrite !drop_all.
Qed.

Lemma at_prefix (r l : list T) (i : Z) :
  r `prefix_of` l -> 0 <= i < len r -> at_ l i = at_ r i.
Proof.
  intros [k ->] Hi. unfold at_, len in *.
  destruct (Z.ltb_spec i 0); [lia|].
  apply lookup_app_l. lia.
Qed.

Lemma at_suffix (r l : list T) (i : Z) :
  r `suffix_of` l -> 0 <= i < len r ->
  at_ l (len l - i - 1) = at_ r (len r - i - 1).
Proof.
  intros [k ->] Hi. unfold at_, len in *. rewrite length_app.
  destruct (Z.ltb_spec (Z.of_nat (length k + length r) - i - 1) 0); [lia|].
  destruct (Z.ltb_spec (Z.of_nat (length r) - i - 1) 0); [lia|].
  rewrite lookup_app_r by lia. f_equal. lia.
Qed.

(** X14.  Without [reverse], [createCommon] returns the longest common
    prefix of its two arguments. *)
Theorem createCommon_longest_prefix A B :
  exists r,
    createCommon A B false = Some r
    /\ r `prefix_of` A /\ r `prefix_of` B
    /\ forall r', r' `prefix_of` A -> r' `prefix_of` B -> r' `prefix_of` r.
Proof.
  unfold createCommon.
  destruct ((len A =? 0) || (len B =? 0)) eqn:Hempty.
  { exists []. split; [done|]. split; [apply prefix_nil|].
    split; [apply prefix_nil|]. intros r' HA HB.
    apply prefix_length in HA, HB. unfold len in Hempty.
    apply orb_true_iff in Hempty as [?%Z.eqb_eq|?%Z.eqb_eq];
      destruct r'; simpl in *; (done || lia). }
  destruct (createCommon_loop_total A B false) as [s Hs]. rewrite Hs. simpl.
  apply createCommon_forward in Hs as (Hr & -> & Ht & Hmax).
  eexists. split; [done|]. split; [apply prefix_take|].
  split; [rewrite Ht; apply prefix_take|].
  intros r' HA HB.
  assert (len r' <= s.1) as Hle.
  { destruct (Z.le_gt_cases (len r') s.1) as [|Hgt]; [done|].
    exfalso. pose proof (prefix_length _ _ HA).
    pose proof (prefix_length _ _ HB). unfold len in *.
    apply Hmax; [lia|].
    by rewrite (at_prefix r' A), (at_prefix r' B)
      by (done || unfold len; lia). }
  destruct HA as [k ->]. unfold len in Hle.
  rewrite take_app, (take_ge r') by lia. by eexists.
Qed.

(** X15.  With [reverse], [createCommon] returns the longest common suffix
    of its two arguments, last element first. *)
Theorem createCommon_longest_suffix A B :
  exists r,
    createCommon A B true = Some r
    /\ reverse r `suffix_of` A /\ reverse r `suffix_of` B
    /\ forall r', r' `suffix_of` A -> r' `suffix_of` B ->
                  r' `suffix_of` reverse r.
Proof.
  unfold createCommon.
  destruct ((len A =? 0) || (len B =? 0)) eqn:Hempty.
  { exists []. split; [done|]. split; [apply suffix_nil|].
    split; [apply suffix_nil|]. intros r' HA HB.
    apply suffix_length in HA, HB. unfold len in Hempty.
    apply orb_true_iff in Hempty as [?%Z.eqb_eq|?%Z.eqb_eq];
      destruct r'; simpl in *; (done || lia). }
  destruct (createCommon_loop_total A B true) as [s Hs]. rewrite Hs. simpl.
  apply createCommon_backward in Hs as (Hr & -> & Ht & Hmax).
  eexists. split; [done|]. rewrite reverse_involutive.
  split; [apply suffix_drop|].
  split; [rewrite Ht; apply suffix_drop|].
  intros r' HA HB.
  assert (len r' <= s.1) as Hle.
  { destruct (Z.le_gt_cases (len r') s.1) as [|Hgt]; [done|].
    exfalso. pose proof (suffix_length _ _ HA).
    pose proof (suffix_length _ _ HB). unfold len in *.
    apply Hmax; [lia|].
    by rewrite (at_suffix r' A), (at_suffix r' B)
      by (done || unfold len; lia). }
  destruct HA as [k ->]. unfold len in *. rewrite length_app in *.
  rewrite drop_app_le by lia. by eexists.
Qed.

Lemma at_drop (l : list T) (n : nat) (i : Z) :
  0 <= i -> at_ (drop n l) i = at_ l (i + Z.of_nat n).
Proof.
  intros Hi. unfold at_.
  destruct (Z.ltb_spec i 0); [lia|].
  destruct (Z.ltb_spec (i + Z.of_nat n) 0); [lia|].
  rewrite lookup_drop. f_equal. lia.
Qed.

Lemma take_eq_at (l1 l2 : list T) (n : nat) (i : Z) :
  take n l1 = take n l2 -> 0 <= i < Z.of_nat n -> at_ l1 i = at_ l2 i.
Proof.
  intros Ht Hi. unfold at_. destruct (Z.ltb_spec i 0); [lia|].
  rewrite <- (lookup_take_lt l1 n), <- (lookup_take_lt l2 n) by lia.
  by rewrite Ht.
Qed.

Lemma drop_eq_at (l1 l2 : list T) (e j : Z) :
  drop (Z.to_nat (len l1 - e)) l1 = drop (Z.to_nat (len l2 - e)) l2 ->
  0 <= j < e -> e <= len l1 -> e <= len l2 ->
  at_ l1 (len l1 - j - 1) = at_ l2 (len l2 - j - 1).
Proof.
  intros Hd Hj H1 H2.
  replace (len l1 - j - 1)
    with ((e - j - 1) + Z.of_nat (Z.to_nat (len l1 - e))) by lia.
  replace (len l2 - j - 1)
    with ((e - j - 1) + Z.of_nat (Z.to_nat (len l2 - e))) by lia.
  rewrite <- !at_drop by lia. by rewrite Hd.
Qed.

Lemma len_drop (l : list T) (n : nat) :
  (n <= length l)%nat -> len (drop n l) = len l - Z.of_nat n.
Proof. intros Hn. unfold len. rewrite length_drop. lia. Qed.

(** X16.  The trimming inside [diffSequence] and [createCommon] agree: the
    prefix scan stops where [createCommon(A, B)] does, and the suffix scan
    finds what [createCommon] finds, with [reverse], on the two sequences
    without their common prefix. *)
Theorem trimming_agrees_with_createCommon A B :
  exists start end_,
    affixes A B = Some (start, end_)
    /\ createCommon A B false = Some (take (Z.to_nat start) A)
    /\ createCommon (drop (Z.to_nat start) A) (drop (Z.to_nat start) B) true
       = Some (reverse (drop (Z.to_nat (len A - end_)) A)).
Proof.
  destruct (affixes_facts A B)
    as (start & end_ & Ha & H0 & H1 & H2 & H3 & H4 & H5 & H6).
  exists start, end_. split; [done|].
  pose proof (len_nonneg A) as HlA. pose proof (len_nonneg B) as HlB.
  split.
  - unfold createCommon.
    destruct ((len A =? 0) || (len B =? 0)) eqn:Hempty.
    { apply orb_true_iff in Hempty as [?%Z.eqb_eq|?%Z.eqb_eq];
        by replace start with 0 by lia. }
    destruct (createCommon_loop_total A B false) as [s Hs]. rewrite Hs.
    simpl. apply createCommon_forward in Hs as (Hr & -> & Ht & Hmax).
    do 3 f_equal.
    destruct (Z.lt_trichotomy s.1 start) as [Hlt|[Heq|Hgt]]; [|done|].
    + destruct Hmax; [lia|]. apply (take_eq_at _ _ _ _ H3). lia.
    + destruct H5; [lia|]. apply (take_eq_at _ _ _ _ Ht). lia.
  - set (A' := drop (Z.to_nat start) A). set (B' := drop (Z.to_nat start) B).
    assert (len A' = len A - start) as HA'
      by (unfold A'; rewrite len_drop; unfold len in *; lia).
    assert (len B' = len B - start) as HB'
      by (unfold B'; rewrite len_drop; unfold len in *; lia).
    unfold createCommon.
    destruct ((len A' =? 0) || (len B' =? 0)) eqn:Hempty.
    { assert (end_ = 0) as ->
        by (apply orb_true_iff in Hempty as [?%Z.eqb_eq|?%Z.eqb_eq]; lia).
      replace (Z.to_nat (len A - 0)) with (length A) by (unfold len; lia).
      by rewrite drop_all. }
    destruct (createCommon_loop_total A' B' true) as [s Hs]. rewrite Hs.
    simpl. apply createCommon_backward in Hs as (Hr & -> & Ht & Hmax).
    assert (forall j, 0 <= j < Z.min (len A') (len B') ->
              at_ A' (len A' - j - 1) = at_ A (len A - j - 1)
              /\ at_ B' (len B' - j - 1) = at_ B (len B - j - 1)) as Hshift.
    { intros j Hj. split.
      - unfold A' at 1. rewrite at_drop by lia. f_equal. lia.
      - unfold B' at 1. rewrite at_drop by lia. f_equal. lia. }
    assert (s.1 = end_) as Hsame.
    { destruct (Z.lt_trichotomy s.1 end_) as [Hlt|[Heq|Hgt]]; [|done|].
      - destruct Hmax; [lia|].
        destruct (Hshift s.1) as [-> ->]; [lia|].
        apply (drop_eq_at A B end_); (done || lia).
      - destruct H6; [lia|].
        destruct (Hshift end_) as [<- <-]; [lia|].
        apply (drop_eq_at A' B' s.1); (done || lia). }
    do 2 f_equal. unfold A' at 2. rewrite drop_drop. f_equal. lia.
Qed.
End CreateCommonFacts.

(** ** [buildMessage] *)

(** X17.  Whatever the two texts and the colour functions, the message
    built from the result of [diffstr] holds no diff line: it is the
    heading between empty lines, six lines in all, or seven when the lines
    are joined into one. *)
Theorem message_of_diffstr_has_no_diff_line
    (bgGreen bgRed bold gray green red white : jsstring -> jsstring)
    (A B : jsstring) :
  exists diffResult,
    diffstr A B = Some diffResult
    /\ buildMessage bgGreen bgRed bold gray green red white diffResult false
       = [[]; []; heading bold gray green red; []; []; []]
    /\ buildMessage bgGreen bgRed bold gray green red white diffResult true
       = [[]; []; heading bold gray green red; []; []; []; []].
Proof. exists []. split; [apply diffstr_returns_nil|done]. Qed.

(** X18.  Once the partner lines are used up, a changed line gets the
    empty array as its details, and such a line is rendered as its
    coloured sign alone, without its text. *)
Theorem unpaired_line_loses_its_text
    (bgGreen bgRed bold gray green red white : jsstring -> jsstring)
    (store : list (DiffResult jsstring)) (ia : nat)
    (a : DiffResult jsstring) :
  store !! ia = Some a ->
  exists store',
    word_diff_step (Some (store, [])) ia = Some (store', [])
    /\ store' !! ia = Some (with_details a [])
    /\ buildMessage bgGreen bgRed bold gray green red white store' false
         !! (5 + ia)%nat
       = Some (createColor bgGreen bgRed bold green red white (type a) false
                 (createSign (type a))).
Proof.
  intros Ha. apply lookup_lt_Some in Ha as Hlt.
  exists (<[ia := with_details a []]> store).
  assert (<[ia := with_details a []]> store !! ia = Some (with_details a []))
    as Hnew by (by apply list_lookup_insert_eq).
  split; [|split; [done|]].
  - unfold word_diff_step. simpl. rewrite Ha. simpl.
    unfold set_details. rewrite Ha. simpl. done.
  - unfold buildMessage.
    change (?x :: ?y :: ?z :: ?u :: ?v :: [] ++ ?l)
      with ([x; y; z; u; v] ++ l).
    rewrite lookup_app_r by (simpl; lia).
    replace (5 + ia - length _)%nat with ia by (simpl; lia).
    rewrite lookup_app_l by (rewrite length_map, length_insert; lia).
    rewrite list_lookup_fmap, Hnew. simpl.
    unfold render, line_text. simpl. by rewrite app_nil_r.
Qed.

Lemma unpaired_line_loses_its_text_witness :
  exists store',
    word_diff_step (Some ([entry removed [97; 10]], [])) 0%nat
    = Some (store', [])
    /\ store' !! 0%nat = Some (with_details (entry removed [97; 10]) [])
    /\ buildMessage id id id id id id id store' false !! 5%nat
       = Some (createColor id id id id id id removed false
                 (createSign removed)).
Proof.
  exact (unpaired_line_loses_its_text id id id id id id id
           [entry removed [97; 10]] 0 (entry removed [97; 10]) eq_refl).
Defined.

Lemma createDetails_values (line : DiffResult jsstring)
    (tokens : list (DiffResult jsstring)) :
  map value (createDetails line tokens)
  = map value (filter (relevant line) tokens).
Proof.
  rewrite createDetails_retag.
  set (t := filter (relevant line) tokens).
  apply list_eq. intros i.
  change (map value ?l) with (value <$> l).
  rewrite !list_lookup_fmap, list_lookup_imap.
  destruct (t !! i) as [x|]; [|done]. simpl.
  by rewrite (proj1 (retag_value t i x)).
Qed.

(** X19.  When the colour functions leave their argument as it is
    (colours switched off), a line that carries the details built by
    [createDetails] is rendered as its sign followed by the values of the
    word-diff entries that belong to the line, in order. *)
Theorem plain_rendering_of_details
    (bgGreen bgRed bold green red white : jsstring -> jsstring)
    (a : DiffResult jsstring) (tokens : list (DiffResult jsstring)) :
  (forall s, bold s = s) -> (forall s, green s = s) ->
  (forall s, red s = s) -> (forall s, white s = s) ->
  render bgGreen bgRed bold green red white
    (with_details a (createDetails a tokens))
  = createSign (type a)
      ++ concat (map value (filter (relevant a) tokens)).
Proof.
  intros Hbold Hgreen Hred Hwhite.
  assert (forall ty bg s,
            createColor bgGreen bgRed bold green red white ty bg s = s)
    as Hplain.
  { intros [] bg s; simpl; by rewrite ?Hbold, ?Hgreen, ?Hred, ?Hwhite. }
  unfold render. rewrite Hplain. simpl. f_equal.
  unfold line_text. simpl. rewrite <- createDetails_values. f_equal.
  apply map_ext. intros d. rewrite Hplain. by destruct (bool_decide _).
Qed.

Lemma plain_rendering_of_details_witness :
  render id id id id id id
    (with_details (entry removed [97; 32; 98])
       (createDetails (entry removed [97; 32; 98])
          [entry removed [97]; entry common [32]; entry added [98]]))
  = createSign removed
      ++ concat (map value
                   (filter (relevant (entry removed [97; 32; 98]))
                      [entry removed [97]; entry common [32];
                       entry added [98]])).
Proof.
  by apply (plain_rendering_of_details id id id id id id).
Defined.

(** ** The search of [diffSequence] *)

Section SearchFacts.
Context {T : Type} `{EqDecision T}.
Implicit Types a b : list T.

Lemma rd_insert (v : list Z) (i j x z : Z) :
  0 <= i < len v ->
  rd (<[Z.to_nat i := x]> v) j = Some z ->
  (j = i /\ z = x) \/ (j <> i /\ rd v j = Some z).
Proof.
  intros Hi. unfold rd, at_, len in *.
  destruct (Z.ltb_spec j 0); [done|].
  destruct (decide (j = i)) as [->|Hne].
  - rewrite list_lookup_insert_eq by lia. intros [= <-]. by left.
  - rewrite list_lookup_insert_ne by lia. by right.
Qed.

Lemma snake_no_match a b (start n m x y : Z) :
  core_disjoint a b start n -> 0 <= x ->
  snake a b start n m (x, y) = Some (x, y).
Proof.
  intros Hdis Hx. unfold snake. apply while_done.
  unfold snake_cond. simpl.
  destruct (Z.ltb_spec x n); [|done].
  rewrite andb_comm. apply andb_false_intro1.
  apply bool_decide_eq_false. apply Hdis. lia.
Qed.

Lemma choose_x_bound (v : list Z) (max d k x : Z) :
  nonneg_all v -> reach_bound_during max d v ->
  (k + d) mod 2 = 0 -> - d <= k ->
  choose_x v max d k = Some x ->
  0 <= x /\ 2 * x - k <= d.
Proof.
  intros Hv Hb Hpar Hk. unfold choose_x.
  replace (max + (k - 1)) with (k - 1 + max) by lia.
  assert (forall hi, rd v (k + 1 + max) = Some hi ->
            0 <= hi /\ 2 * hi - k <= d) as Hhi.
  { intros hi Hr. split; [by eapply rd_nonneg|].
    apply Hb in Hr.
    replace ((k + 1 + d) mod 2 =? 0) with false in Hr
      by (symmetry; apply Z.eqb_neq; Z.div_mod_to_equations; lia).
    lia. }
  assert (k <> - d -> forall lo, rd v (k - 1 + max) = Some lo ->
            0 <= lo + 1 /\ 2 * (lo + 1) - k <= d) as Hlo.
  { intros Hne lo Hr. split; [apply (rd_nonneg _ _ _ Hv) in Hr; lia|].
    apply Hb in Hr.
    replace ((k - 1 + d) mod 2 =? 0) with false in Hr
      by (symmetry; apply Z.eqb_neq; Z.div_mod_to_equations; lia).
    assert (- d + 2 <= k) by (Z.div_mod_to_equations; lia). lia. }
  case_bool_decide as Hkd; [by intros ?%Hhi|].
  case_bool_decide as Hkd'.
  - destruct (rd v (k - 1 + max)) as [lo|] eqn:Hrlo; [|done].
    destruct (rd v (k + 1 + max)) as [hi|] eqn:Hrhi; [|done]. simpl.
    destruct (lo <? hi); intros [= <-]; [by apply Hhi|by apply Hlo].
  - destruct (rd v (k - 1 + max)) as [lo|] eqn:Hrlo; [|done]. simpl.
    intros [= <-]. by apply Hlo.
Qed.

(** One pass over a diagonal, when nothing matches: the end point is not
    reached and the bound is kept. *)
Lemma k_body_no_match a b (start n m max d : Z) (st st' : KState) :
  core_disjoint a b start n -> max = m + n -> 0 <= d < max ->
  nonneg_all (kv st) -> len (kv st) = 2 * max + 1 ->
  reach_bound_during max d (kv st) ->
  (kk st + d) mod 2 = 0 -> - d <= kk st <= d ->
  k_body a b start n m max d st = Some st' ->
  kfound st' = false /\ kk st' = kk st + 2
  /\ nonneg_all (kv st') /\ len (kv st') = 2 * max + 1
  /\ reach_bound_during max d (kv st').
Proof.
  intros Hdis Hmax Hd Hv Hlen Hb Hpar Hk. unfold k_body.
  destruct (choose_x (kv st) max d (kk st)) as [x|] eqn:Hx; [|done].
  apply choose_x_bound in Hx as [Hx0 Hxd]; [|done|done|done|lia].
  simpl. rewrite (snake_no_match a b start n m x) by done. simpl.
  rewrite wr_Some by lia. simpl.
  replace ((x >=? n) && (x - kk st >=? m)) with false.
  2:{ symmetry. apply andb_false_iff.
      destruct (Z.geb_spec x n); [|by left].
      destruct (Z.geb_spec (x - kk st) m); [lia|by right]. }
  intros [= <-]. simpl.
  split; [done|]. split; [done|].
  split; [by apply nonneg_all_insert|].
  split; [unfold len in *; by rewrite length_insert|].
  intros k z Hr.
  apply rd_insert in Hr as [[Hkeq ->]|[_ Hr]]; [|by apply Hb|lia].
  assert (k = kk st) as -> by lia.
  replace ((kk st + d) mod 2 =? 0) with true
    by (symmetry; by apply Z.eqb_eq).
  pose proof (Z.mod_le x (2 ^ 32)). lia.
Qed.

Lemma k_loop_no_match a b (start n m max d mMax nMax : Z) (v : list Z)
    (ks : KState) :
  core_disjoint a b start n -> max = m + n -> 0 <= d < max ->
  0 <= mMax -> 0 <= nMax ->
  nonneg_all v -> len v = 2 * max + 1 -> reach_bound max (d - 1) v ->
  while_ (Z.to_nat max) (k_cond d nMax) (k_body a b start n m max d)
    (mkK v (- (d - 2 * mMax)) false) = Some ks ->
  kfound ks = false /\ nonneg_all (kv ks) /\ len (kv ks) = 2 * max + 1
  /\ reach_bound max d (kv ks).
Proof.
  intros Hdis Hmax Hd HmMax HnMax Hv Hlen Hb Hloop.
  apply (while_inv (k_cond d nMax) (k_body a b start n m max d)
           (fun st => kfound st = false /\ nonneg_all (kv st)
                      /\ len (kv st) = 2 * max + 1
                      /\ reach_bound_during max d (kv st)
                      /\ (kk st + d) mod 2 = 0 /\ - d <= kk st))
    in Hloop as [(Hf & Hv' & Hlen' & Hb' & _) _].
  - split; [done|]. split; [done|]. split; [done|].
    intros k z Hr. apply Hb' in Hr. destruct (_ =? 0); lia.
  - intros st st' (Hf & Hv' & Hlen' & Hb' & Hpar & Hk) Hc Hbody.
    unfold k_cond in Hc. apply andb_true_iff in Hc as [_ Hlt].
    apply Z.ltb_lt in Hlt.
    eapply k_body_no_match in Hbody as (? & Hkk & ? & ? & ?);
      [|done|done|done|done|done|done|done|lia].
    rewrite Hkk. repeat split; try done; [|lia].
    Z.div_mod_to_equations. lia.
  - simpl. split; [done|]. split; [done|]. split; [done|].
    split; [|split; [|lia]].
    + intros k z Hr. apply Hb in Hr. destruct (_ =? 0); lia.
    + replace (- (d - 2 * mMax) + d) with (mMax * 2) by lia.
      apply Z.mod_mul. lia.
Qed.

(** X20.  When no element of the core of [a] occurs in [b], the search
    makes all its [n + m] passes and never reaches the end point: the loop
    stops one depth short of the edit distance [n + m] of such cores. *)
Theorem search_misses_disjoint_cores a b (start end_ : Z) :
  0 < (len b - start - end_) + (len a - start - end_) ->
  core_disjoint a b start (len a - start - end_) ->
  exists st,
    search a b start end_ = Some st
    /\ sfound st = false
    /\ sd st = (len b - start - end_) + (len a - start - end_).
Proof.
  intros Hpos Hdis.
  destruct (search_total a b start end_) as (st & Hst & _).
  exists st. split; [done|]. unfold search in Hst.
  set (n := len a - start - end_) in *. set (m := len b - start - end_) in *.
  set (max := m + n) in *.
  apply (while_inv (search_cond max) (search_body a b start n m max)
           (fun st => sfound st = false /\ nonneg_all (sv st)
                      /\ len (sv st) = 2 * max + 1
                      /\ reach_bound max (sd st - 1) (sv st)
                      /\ 0 <= sd st <= max))
    in Hst as [(Hf & _ & _ & _ & Hd) Hend].
  - split; [done|]. unfold search_cond in Hend. rewrite Hf in Hend.
    simpl in Hend. apply Z.ltb_ge in Hend. lia.
  - clear st Hst. intros st st' (Hf & Hv & Hlen & Hb & Hd) Hc.
    unfold search_cond in Hc. apply andb_true_iff in Hc as [_ Hlt].
    apply Z.ltb_lt in Hlt. unfold search_body.
    set (mMax := if sd st - m >? 0 then sd st - m else 0).
    set (nMax := if sd st - n >? 0 then sd st - n else 0).
    assert (0 <= mMax)
      by (subst mMax; destruct (Z.gtb_spec (sd st - m) 0); lia).
    assert (0 <= nMax)
      by (subst nMax; destruct (Z.gtb_spec (sd st - n) 0); lia).
    destruct (while_ _ _ _ _) as [ks|] eqn:Hks; [|done]. simpl.
    apply k_loop_no_match in Hks as (Hkf & Hkv & Hkl & Hkb);
      [|done|done|lia|done|done|done|done|done].
    rewrite Hkf. intros [= <-]. simpl.
    split; [done|]. split; [done|]. split; [done|].
    split; [|lia]. by replace (sd st + 1 - 1) with (sd st) by lia.
  - simpl. split; [done|]. split; [by apply Forall_replicate|].
    split; [unfold len; rewrite length_replicate; lia|].
    split; [|lia].
    intros k z Hr. apply at_Some_inv in Hr as [Hrange Hr].
    apply lookup_replicate in Hr as [-> _].
    unfold len in Hrange. rewrite length_replicate in Hrange. lia.
Qed.

(** X21.  The trace grows by one copy of the whole buffer in every pass
    but the first: at the end it holds as many snapshots as the depth
    reached (one less when the end point was not reached), each of the
    size of the buffer, [2 (n + m) + 1] cells. *)
Theorem search_trace_size a b (start end_ : Z) :
  0 < (len b - start - end_) + (len a - start - end_) ->
  exists st,
    search a b start end_ = Some st
    /\ len (sv st)
       = 2 * ((len b - start - end_) + (len a - start - end_)) + 1
    /\ Forall (fun snap => len snap = len (sv st)) (strace st)
    /\ len (strace st)
       = if sfound st then sd st else Z.max 0 (sd st - 1).
Proof.
  intros Hpos.
  destruct (search_total a b start end_) as (st & Hst & _).
  exists st. split; [done|]. unfold search in Hst.
  set (n := len a - start - end_) in *. set (m := len b - start - end_) in *.
  set (max := m + n) in *.
  apply (while_inv (search_cond max) (search_body a b start n m max)
           (fun st => search_inv max st
                      /\ Forall (fun snap => len snap = 2 * max + 1)
                           (strace st)
                      /\ len (strace st)
                         = if sfound st then sd st
                           else Z.max 0 (sd st - 1)))
    in Hst as [((_ & Hlen & _) & Hall & Hcount) _].
  - split; [done|]. split; [by rewrite Hlen|done].
  - clear st Hst. intros st st' (Hinv & Hall & Hcount) Hc Hbody.
    destruct (search_body_total a b start n m max st Hinv Hc)
      as (st1 & Hst1 & Hinv1 & _).
    assert (st1 = st') as -> by congruence.
    split; [done|].
    destruct Hinv as (_ & Hlen & Hd).
    unfold search_cond in Hc. apply andb_true_iff in Hc as [Hnf Hlt].
    apply negb_true_iff in Hnf. apply Z.ltb_lt in Hlt.
    rewrite Hnf in Hcount. unfold search_body in Hbody.
    destruct (while_ _ _ _ _) as [ks|]; [|done]. simpl in Hbody.
    assert (Forall (fun snap => len snap = 2 * max + 1)
              (if 0 <? sd st then strace st ++ [sv st] else strace st)
            /\ len (if 0 <? sd st then strace st ++ [sv st] else strace st)
               = sd st) as [Hall' Hcount'].
    { destruct (Z.ltb_spec 0 (sd st)).
      - split; [apply Forall_app; split; [done|by constructor]|].
        unfold len in *. rewrite length_app. simpl. lia.
      - split; [done|lia]. }
    destruct (kfound ks); injection Hbody as <-; simpl;
      (split; [done|lia]).
  - simpl. split; [|split; [done|done]].
    unfold search_inv. simpl. split; [by apply Forall_replicate|].
    split; [unfold len; rewrite length_replicate; lia|lia].
Qed.

End SearchFacts.

Lemma search_misses_disjoint_cores_witness :
  exists st,
    search [1; 2; 3] [1; 9; 3] 1 1 = Some st
    /\ sfound st = false /\ sd st = 2.
Proof.
  apply (search_misses_disjoint_cores [1; 2; 3] [1; 9; 3] 1 1).
  - vm_compute. reflexivity.
  - intros x y Hx.
    assert (x = 0) as -> by (unfold len in Hx; simpl in Hx; lia).
    unfold at_. simpl. destruct (y <? 0); [done|].
    by destruct (Z.to_nat y) as [|[|[|?]]].
Defined.

Lemma search_trace_size_witness :
  exists st,
    search [1; 2; 3] [1; 9; 3] 1 1 = Some st
    /\ len (sv st) = 5
    /\ Forall (fun snap => len snap = len (sv st)) (strace st)
    /\ len (strace st) = if sfound st then sd st else Z.max 0 (sd st - 1).
Proof.
  apply (search_trace_size [1; 2; 3] [1; 9; 3] 1 1).
  vm_compute. reflexivity.
Defined.

(** ** [diffstr] *)

(** X22.  With the engine as it stands, [diffstr] returns the empty array
    for every pair of texts, equal or not. *)
Theorem diffstr_is_always_empty (A B : jsstring) : diffstr A B = Some [].
Proof. apply diffstr_returns_nil. Qed.

(** ** Words of letters *)

Lemma word_sep_letter (prev : option Z) (c : Z) (rest : jsstring) :
  is_word_class c = true ->
  word_sep prev (c :: rest) = Some 0%nat \/ word_sep prev (c :: rest) = None.
Proof.
  intros Hc. apply word_class_plain in Hc. unfold is_plain in Hc.
  apply andb_true_iff in Hc as [Hb Hk]. apply negb_true_iff in Hb, Hk.
  unfold word_sep. rewrite Hb, Hk. destruct (xorb _ _); auto.
Qed.

Lemma words_intro (s : jsstring) :
  s <> [] -> forallb is_word_class s = true -> words s = true.
Proof.
  intros Hne Hs. unfold words. rewrite Hs.
  by rewrite bool_decide_eq_false_2.
Qed.

Lemma words_elim (s : jsstring) :
  words s = true -> s <> [] /\ forallb is_word_class s = true.
Proof.
  unfold words. intros [Hne Hs]%andb_true_iff. split; [|done].
  apply negb_true_iff, bool_decide_eq_false in Hne. done.
Qed.

(** On a text of letters, [split] only finds empty matches: it returns
    pieces of letters, each but the last followed by an empty capture. *)
Lemma split_letters (s : jsstring) (r : list jsstring) :
  words s = true -> split word_sep s = Some r ->
  exists ps pq,
    r = with_empty_captures ps ++ [pq]
    /\ Forall (fun p => words p = true) (ps ++ [pq]).
Proof.
  intros [Hne Hs]%words_elim. unfold split.
  destruct (is_nil s) eqn:Hnil; [by destruct s|].
  destruct (while_ _ _ _ _) as [st|] eqn:Hloop; [|done].
  simpl. intros [= <-].
  apply (while_inv split_cond (split_body word_sep)
           (fun st => (exists ps, sout st = with_empty_captures ps
                                  /\ Forall (fun p => words p = true) ps)
                      /\ forallb is_word_class (spq st) = true
                      /\ forallb is_word_class (srest st) = true
                      /\ (spq st = [] -> srest st <> [])))
    in Hloop as [((ps & Hout & Hps) & Hpq & _ & Hrest) Hend].
  - unfold split_cond in Hend. apply negb_false_iff in Hend.
    exists ps, (spq st). rewrite Hout. split; [done|].
    apply Forall_app. split; [done|]. constructor; [|done].
    apply words_intro; [|done]. intros Hnil'. apply (Hrest Hnil').
    by destruct (srest st).
  - clear. intros [out pq prev rest] st' ((ps & Hout & Hps) & Hpq & Hr & _).
    simpl in *. intros _. unfold split_body. simpl.
    destruct rest as [|c rest']; [done|]. simpl in Hr.
    apply andb_true_iff in Hr as [Hc Hr'].
    assert (forallb is_word_class (pq ++ [c]) = true) as Hsnoc
      by (rewrite forallb_app, Hpq; simpl; by rewrite Hc).
    assert (pq ++ [c] = [] -> rest' <> []) as Hvac by (by destruct pq).
    destruct (word_sep_letter prev c rest' Hc) as [-> | ->].
    + destruct pq as [|z pq]; simpl.
      * intros [= <-]. simpl. by eauto 10.
      * intros [= <-]. simpl. split; [|by rewrite Hc, Hr'].
        exists (ps ++ [z :: pq]). split.
        -- unfold with_empty_captures in *.
           rewrite map_app, concat_app, Hout. simpl. done.
        -- apply Forall_app. split; [done|]. constructor; [|done].
           by apply words_intro.
    + intros [= <-]. simpl. by eauto 10.
  - simpl. split; [by exists []|]. split; [done|]. split; [done|].
    by intros _.
Qed.

Lemma captures_regroup (ps : list jsstring) (pq : jsstring) :
  with_empty_captures ps ++ [pq]
  = match ps ++ [pq] with
    | x :: rest => x :: after_empty_captures rest
    | [] => []
    end.
Proof.
  induction ps as [|p ps IH]; [done|].
  change (with_empty_captures (p :: ps) ++ [pq])
    with (p :: [] :: (with_empty_captures ps ++ [pq])).
  rewrite IH. simpl.
  destruct (ps ++ [pq]) as [|x rest] eqn:Hshape; [by destruct ps|done].
Qed.

Lemma concat_after_empty_captures (ps : list jsstring) :
  concat (after_empty_captures ps) = concat ps.
Proof.
  unfold after_empty_captures.
  induction ps as [|p ps IH]; [done|]. simpl. by rewrite IH.
Qed.

Lemma length_after_empty_captures (ps : list jsstring) :
  length (after_empty_captures ps) = (2 * length ps)%nat.
Proof.
  unfold after_empty_captures.
  induction ps as [|p ps IH]; [done|]. simpl. rewrite IH. lia.
Qed.

(** The joining loop folds such an array into its first element. *)
Lemma join_collapses (ps : list jsstring) :
  forall (acc : jsstring) (fuel : nat),
    words acc = true -> Forall (fun p => words p = true) ps ->
    (length ps <= fuel)%nat ->
    while_ fuel join_cond join_body (0, acc :: after_empty_captures ps)
    = Some (0, [acc ++ concat ps]).
Proof.
  induction ps as [|p ps IH]; intros acc fuel Hacc Hps Hfuel.
  { simpl. rewrite app_nil_r. by apply while_done. }
  destruct fuel as [|f]; [simpl in Hfuel; lia|].
  inversion Hps as [|? ? Hp Hps']. subst.
  change (after_empty_captures (p :: ps))
    with ([] :: p :: after_empty_captures ps).
  cbn [while_].
  replace (join_cond (0, acc :: [] :: p :: after_empty_captures ps))
    with true by (symmetry; apply Z.ltb_lt; unfold len; simpl; lia).
  assert (join_body (0, acc :: [] :: p :: after_empty_captures ps)
          = Some (0, (acc ++ p) :: after_empty_captures ps)) as ->.
  { unfold join_body. cbn [fst snd].
    change (at_ (acc :: [] :: p :: after_empty_captures ps) (0 + 1))
      with (Some (@nil Z)).
    change (at_ (acc :: [] :: p :: after_empty_captures ps) (0 + 2))
      with (Some p).
    change (at_ (acc :: [] :: p :: after_empty_captures ps) 0)
      with (Some acc).
    cbn [falsy words_test is_nil]. rewrite Hacc, Hp.
    destruct (words_elim p Hp) as [Hne _].
    destruct p as [|z p]; [done|]. reflexivity. }
  rewrite IH; [by rewrite <- app_assoc| |done|simpl in Hfuel; lia].
  destruct (words_elim acc Hacc) as [Hne Hl].
  apply words_intro; [by destruct acc|].
  rewrite forallb_app, Hl. by apply words_elim in Hp as [_ ->].
Qed.

(** X23.  A text made of letters only (ASCII or the extended Latin ranges
    of the [words] expression) is a single word token: the joining loop
    undoes every split that [\b] makes between an ASCII letter and an
    accented one. *)
Theorem word_of_letters_is_one_token (s : jsstring) :
  words s = true -> tokenize s true = Some [s].
Proof.
  intros Hs. unfold tokenize.
  destruct (split_total word_sep s) as [r Hr]. rewrite Hr. simpl.
  pose proof (split_concat _ _ _ Hr) as Hcat.
  apply split_letters in Hr as (ps & pq & -> & Hall); [|done].
  rewrite captures_regroup in *.
  destruct (ps ++ [pq]) as [|x rest] eqn:Hshape; [by destruct ps|].
  inversion Hall as [|? ? Hx Hrest]. subst.
  rewrite (join_collapses rest x);
    [|done|done|simpl; rewrite length_after_empty_captures; lia].
  simpl. rewrite concat_after_empty_captures.
  destruct (words_elim x Hx) as [Hne _]. by destruct x.
Qed.

Lemma word_of_letters_is_one_token_witness :
  tokenize [99; 97; 102; 233] true = Some [[99; 97; 102; 233]].
Proof.
  apply (word_of_letters_is_one_token [99; 97; 102; 233]). reflexivity.
Defined.

(** ** Instances of the statements on trimming *)

Lemma trimming_is_maximal_witness :
  at_ [1; 2; 3] 1 <> at_ [1; 9; 3] 1
  /\ at_ [1; 2; 3; 4] (4 - 1 - 1) <> at_ [1; 9; 8; 4] (4 - 1 - 1).
Proof.
  split.
  - destruct (trimming_is_maximal [1; 2; 3] [1; 9; 3])
      as (start & end_ & Ha & Hpre & _).
    vm_compute in Ha. injection Ha as <- <-.
    apply Hpre. vm_compute. reflexivity.
  - destruct (trimming_is_maximal [1; 2; 3; 4] [1; 9; 8; 4])
      as (start & end_ & Ha & _ & Hsuf).
    vm_compute in Ha. injection Ha as <- <-.
    apply Hsuf. vm_compute. reflexivity.
Defined.

Lemma createCommon_longest_prefix_witness :
  exists r, createCommon [1; 2; 3] [1; 2; 4] false = Some r
            /\ [1] `prefix_of` r.
Proof.
  destruct (createCommon_longest_prefix [1; 2; 3] [1; 2; 4])
    as (r & Hr & _ & _ & Hmax).
  exists r. split; [exact Hr|].
  apply Hmax; [by exists [2; 3]|by exists [2; 4]].
Defined.

Lemma createCommon_longest_suffix_witness :
  exists r, createCommon [1; 2; 3] [4; 2; 3] true = Some r
            /\ [3] `suffix_of` reverse r.
Proof.
  destruct (createCommon_longest_suffix [1; 2; 3] [4; 2; 3])
    as (r & Hr & _ & _ & Hmax).
  exists r. split; [exact Hr|].
  apply Hmax; [by exists [1; 2]|by exists [4; 2]].
Defined.
